(** * jjui: the askpass bridge of [cmd/jjui/main.go]

    A shallow embedding of [run], [getJJRootDir] and [showPassword] from
    [cmd/jjui/main.go], together with the parts of the Go language and
    standard library they rest on (UTF-8 decoding as done by [range] over a
    string, [unicode.IsSpace], buffered channels and [select]). *)

From Stdlib Require Import ZArith List String Ascii Bool Lia.
Import ListNotations.

Open Scope string_scope.
Open Scope Z_scope.

(** ** Go strings and runes

    A Go string is a sequence of bytes; [String.string] is used as such, one
    [ascii] per byte.  A rune is a code point, kept as a [Z]. *)

Definition rune := Z.

Definition byteZ (c : ascii) : Z := Z.of_N (N_of_ascii c).

Module utf8.

Definition RuneError : rune := 0xFFFD.
Definition RuneSelf : Z := 0x80.
Definition MaxRune : rune := 0x10FFFF.

Definition t2 : Z := 0xC0.
Definition t3 : Z := 0xE0.
Definition t4 : Z := 0xF0.
Definition t5 : Z := 0xF8.

Definition maskx : Z := 0x3F.
Definition mask2 : Z := 0x1F.
Definition mask3 : Z := 0x0F.
Definition mask4 : Z := 0x07.

Definition rune1Max : rune := 0x7F.
Definition rune2Max : rune := 0x7FF.
Definition rune3Max : rune := 0xFFFF.

Definition surrogateMin : rune := 0xD800.
Definition surrogateMax : rune := 0xDFFF.

Definition locb : Z := 0x80.
Definition hicb : Z := 0xBF.

(** [locb <= b && b <= hicb]: a continuation byte. *)
Definition isCont (b : Z) : bool := (locb <=? b) && (b <=? hicb).

Definition rune2 (b0 b1 : Z) : rune :=
  Z.lor (Z.shiftl (Z.land b0 mask2) 6) (Z.land b1 maskx).

Definition rune3 (b0 b1 b2 : Z) : rune :=
  Z.lor (Z.lor (Z.shiftl (Z.land b0 mask3) 12)
               (Z.shiftl (Z.land b1 maskx) 6))
        (Z.land b2 maskx).

Definition rune4 (b0 b1 b2 b3 : Z) : rune :=
  Z.lor (Z.lor (Z.lor (Z.shiftl (Z.land b0 mask4) 18)
                      (Z.shiftl (Z.land b1 maskx) 12))
               (Z.shiftl (Z.land b2 maskx) 6))
        (Z.land b3 maskx).

(** The runes that [for _, r := range s] yields, in order.  A byte below
    [RuneSelf] is its own rune; otherwise the runtime decodes a two, three
    or four byte sequence, and anything that is not a well-formed, shortest
    encoding of a scalar value yields [RuneError] and advances one byte
    ([bad], delayed so that one branch alone is evaluated). *)
Fixpoint runes (s : string) : list rune :=
  match s with
  | EmptyString => []
  | String c0 s1 =>
    let b0 := byteZ c0 in
    let bad := fun _ : unit => RuneError :: runes s1 in
    if b0 <? RuneSelf then b0 :: runes s1
    else if (t2 <=? b0) && (b0 <? t3) then
      match s1 with
      | String c1 s2 =>
        let b1 := byteZ c1 in
        let r := rune2 b0 b1 in
        if isCont b1 && (rune1Max <? r) then r :: runes s2 else bad tt
      | EmptyString => bad tt
      end
    else if (t3 <=? b0) && (b0 <? t4) then
      match s1 with
      | String c1 (String c2 s3) =>
        let b1 := byteZ c1 in
        let b2 := byteZ c2 in
        let r := rune3 b0 b1 b2 in
        if isCont b1 && isCont b2 && (rune2Max <? r)
           && negb ((surrogateMin <=? r) && (r <=? surrogateMax))
        then r :: runes s3 else bad tt
      | _ => bad tt
      end
    else if (t4 <=? b0) && (b0 <? t5) then
      match s1 with
      | String c1 (String c2 (String c3 s4)) =>
        let b1 := byteZ c1 in
        let b2 := byteZ c2 in
        let b3 := byteZ c3 in
        let r := rune4 b0 b1 b2 b3 in
        if isCont b1 && isCont b2 && isCont b3
           && (rune3Max <? r) && (r <=? MaxRune)
        then r :: runes s4 else bad tt
      | _ => bad tt
      end
    else bad tt
  end.

End utf8.

Module unicode.

Definition MaxLatin1 : rune := 0xFF.

(** The code points of the [White_Space] range table, as [(lo, hi)]
    ranges. *)
Definition White_Space : list (rune * rune) :=
  [ (0x0009, 0x000D); (0x0020, 0x0020); (0x0085, 0x0085); (0x00A0, 0x00A0);
    (0x1680, 0x1680); (0x2000, 0x200A); (0x2028, 0x2029); (0x202F, 0x202F);
    (0x205F, 0x205F); (0x3000, 0x3000) ].

Definition inRange (r : rune) (p : rune * rune) : bool :=
  (fst p <=? r) && (r <=? snd p).

(** Table lookup that skips the Latin-1 entries; a negative rune, like one
    above [MaxLatin1], is looked up here and found in no range. *)
Definition isExcludingLatin (tab : list (rune * rune)) (r : rune) : bool :=
  existsb (inRange r) (filter (fun p => MaxLatin1 <? fst p) tab).

Definition IsSpace (r : rune) : bool :=
  if (0 <=? r) && (r <=? MaxLatin1) then
    (r =? 0x09) || (r =? 0x0A) || (r =? 0x0B) || (r =? 0x0C) || (r =? 0x0D)
    || (r =? 0x20) || (r =? 0x85) || (r =? 0xA0)
  else isExcludingLatin White_Space r.

End unicode.

(** ** [showPassword]: prompt normalisation *)

Definition fallbackPrompt : string := "ssh-askpass: ".

(** The body of the [for _, r := range s] loop of [adjustPrompt], over the
    runes still to visit: the first rune that is not a space returns [s]
    at once, running out of runes returns the fallback label. *)
Fixpoint adjustPrompt_loop (rs : list rune) (s : string) : string :=
  match rs with
  | [] => fallbackPrompt
  | r :: rs' => if negb (unicode.IsSpace r) then s else adjustPrompt_loop rs' s
  end.

Definition adjustPrompt (s : string) : string :=
  adjustPrompt_loop (utf8.runes s) s.

(** ** [showPassword]: the prompt handler

    A Go [[]byte] is either [nil] or a slice. *)

Definition GoBytes := option (list Byte.byte).

Definition chan_id := nat.

(** [common.TogglePasswordMsg], with the two fields the handler sets.  The
    [Password] channel is kept by its identity; [None] is the nil channel. *)
Record TogglePasswordMsg := {
  Prompt : string;
  Password : option chan_id
}.

(** [common.TogglePasswordMsg{}] *)
Definition TogglePasswordMsg_zero : TogglePasswordMsg :=
  {| Prompt := ""; Password := None |}.

(** The two cases of the handler's [select]. *)
Inductive Case := CaseDone | CasePassword.

(** Where the handler goroutine stands. *)
Inductive PC :=
| AtEntry                         (* called, nothing executed yet *)
| AtSelect                        (* [send] returned, [select] not yet evaluated *)
| Parked                          (* blocked in [select]: no case was ready *)
| InCaseDone                      (* [case <-done] chosen, body not yet run *)
| InCasePassword (pw : GoBytes)   (* [case pw := <-password] chosen *)
| Returned (r : GoBytes).

(** One invocation of the handler, with everything it shares with the other
    goroutines: the receiver of [send] (of type [U]), the buffer of the
    [password] channel and whether [done] is ready.  [taken] records the
    cases of the [select] that were entered. *)
Record HState (U : Type) := {
  pc : PC;
  ui : U;
  password : list GoBytes;
  done : bool;
  taken : list Case
}.
Arguments pc {U}.
Arguments ui {U}.
Arguments password {U}.
Arguments done {U}.
Arguments taken {U}.

(** [make(chan []byte, 1)] *)
Definition password_cap : nat := 1.

Inductive Action :=
| Handler (pick : Case)   (* the handler runs to its next communication;
                             [pick] is the runtime's choice when both cases
                             of the [select] are ready *)
| FireDone                (* [done] becomes ready *)
| Deliver (pw : GoBytes). (* the holder of the show message sends [pw] on
                             its [Password] channel *)

Section ShowPassword.

Context {U : Type}.
Variable send : TogglePasswordMsg -> U -> U.

Definition set_pc (p : PC) (st : HState U) : HState U :=
  {| pc := p; ui := ui st; password := password st; done := done st;
     taken := taken st |}.

Definition enter (c : Case) (p : PC) (buf : list GoBytes) (st : HState U)
  : HState U :=
  {| pc := p; ui := ui st; password := buf; done := done st;
     taken := taken st ++ [c] |}.

Definition call_send (m : TogglePasswordMsg) (st : HState U) : HState U :=
  {| pc := pc st; ui := send m (ui st); password := password st;
     done := done st; taken := taken st |}.

(** The handler's own steps.  [None]: the goroutine cannot run (it is
    blocked in the [select], or it has returned). *)
Definition handler_step (name prompt : string) (ch : chan_id) (pick : Case)
           (st : HState U) : option (HState U) :=
  match pc st with
  | AtEntry =>
    (* password := make(chan []byte, 1); send(TogglePasswordMsg{...}) *)
    Some (set_pc AtSelect
            (call_send {| Prompt := adjustPrompt prompt;
                          Password := Some ch |} st))
  | AtSelect =>
    match done st, password st with
    | false, [] => Some (set_pc Parked st)
    | true, [] => Some (enter CaseDone InCaseDone [] st)
    | false, pw :: buf => Some (enter CasePassword (InCasePassword pw) buf st)
    | true, pw :: buf =>
      match pick with
      | CaseDone => Some (enter CaseDone InCaseDone (pw :: buf) st)
      | CasePassword => Some (enter CasePassword (InCasePassword pw) buf st)
      end
    end
  | Parked => None
  | InCaseDone =>
    (* send(common.TogglePasswordMsg{}); return nil *)
    Some (set_pc (Returned None) (call_send TogglePasswordMsg_zero st))
  | InCasePassword pw =>
    (* return pw *)
    Some (set_pc (Returned pw) st)
  | Returned _ => None
  end.

(** [done] becomes ready; a handler parked in the [select] is woken with
    [case <-done]. *)
Definition fire_done (st : HState U) : option (HState U) :=
  if done st then None
  else
    let st' := {| pc := pc st; ui := ui st; password := password st;
                  done := true; taken := taken st |} in
    match pc st with
    | Parked => Some (enter CaseDone InCaseDone (password st') st')
    | _ => Some st'
    end.

(** A send on the [password] channel.  The channel exists once the handler
    has made it; a handler parked in the [select] receives the value
    directly, otherwise the value goes to the buffer if there is room, and
    the sender blocks ([None]) if there is none. *)
Definition deliver (pw : GoBytes) (st : HState U) : option (HState U) :=
  match pc st with
  | AtEntry => None
  | Parked => Some (enter CasePassword (InCasePassword pw) (password st) st)
  | _ =>
    if (List.length (password st) <? password_cap)%nat
    then Some {| pc := pc st; ui := ui st;
                 password := password st ++ [pw];
                 done := done st; taken := taken st |}
    else None
  end.

Definition step (name prompt : string) (ch : chan_id) (a : Action)
           (st : HState U) : option (HState U) :=
  match a with
  | Handler pick => handler_step name prompt ch pick st
  | FireDone => fire_done st
  | Deliver pw => deliver pw st
  end.

(** A schedule is run from left to right; [None] when one of its actions
    is not possible where it stands. *)
Fixpoint exec (name prompt : string) (ch : chan_id) (sched : list Action)
         (st : HState U) : option (HState U) :=
  match sched with
  | [] => Some st
  | a :: sched' =>
    match step name prompt ch a st with
    | Some st' => exec name prompt ch sched' st'
    | None => None
    end
  end.

(** The handler alone, until it returns or blocks, at most [fuel] steps. *)
Fixpoint run_handler (fuel : nat) (name prompt : string) (ch : chan_id)
         (pick : Case) (st : HState U) : HState U :=
  match fuel with
  | O => st
  | S fuel' =>
    match handler_step name prompt ch pick st with
    | Some st' => run_handler fuel' name prompt ch pick st'
    | None => st
    end
  end.

Definition entry (u : U) (done0 : bool) : HState U :=
  {| pc := AtEntry; ui := u; password := []; done := done0; taken := [] |}.

End ShowPassword.

(** The receiver of [send] as the log of the messages sent, oldest first. *)
Definition post (m : TogglePasswordMsg) (log : list TogglePasswordMsg)
  : list TogglePasswordMsg := log ++ [m].

(** What the handler returns, once the [select] has chosen. *)
Definition result {U} (st : HState U) : option GoBytes :=
  match pc st with
  | InCaseDone => Some None
  | InCasePassword pw => Some pw
  | Returned r => Some r
  | _ => None
  end.

(** The signals of a schedule, in the order they fire. *)
Fixpoint signals (sched : list Action) : list Case :=
  match sched with
  | [] => []
  | Handler _ :: sched' => signals sched'
  | FireDone :: sched' => CaseDone :: signals sched'
  | Deliver _ :: sched' => CasePassword :: signals sched'
  end.

(** The values sent on the [password] channel, in order. *)
Fixpoint deliveries (sched : list Action) : list GoBytes :=
  match sched with
  | [] => []
  | Deliver pw :: sched' => pw :: deliveries sched'
  | _ :: sched' => deliveries sched'
  end.

(** ** [run]: the entry point

    Everything [run] calls outside this file (the [askpass], [config],
    [scripting], [context], [ui], [tea] and [lipgloss] packages, [flag],
    [os], [os/exec], [log]) is an event of the trace, and what the call
    answers is read from a [World]. *)

Definition error := string.

Definition nl : string := String (ascii_of_nat 10) EmptyString.

(** The package-level flag variables, as [flag.Parse] leaves them, and
    [flag.Args()]. *)
Record Flags := {
  revset : string;
  period : Z;
  limit : Z;
  version : bool;
  editConfig : bool;
  help : bool;
  args : list string
}.

(** [flag.Parse()] on the default command line either returns or ends the
    process itself (unknown flag, [-h]). *)
Inductive FlagOutcome :=
| Parsed (fl : Flags)
| ParseExit (code : Z).

(** [cmd.Output()] of [jj root]. *)
Inductive CmdResult :=
| CmdOk (output : string)
| CmdExitError (stderr : string)   (* [*exec.ExitError] *)
| CmdError (e : error).            (* any other error *)

(** [config.LoadConfigFile()] *)
Inductive LoadConfigResult :=
| ConfigFile (output : string)
| ConfigErrNotExist                (* [errors.Is(err, fs.ErrNotExist)] *)
| ConfigErr (e : error).

(** The fields of [config.Current] that [run] reads or writes. *)
Record Config := {
  Limit : Z;
  UI_Theme_Dark : string;
  UI_Theme_Light : string;
  UI_AutoRefreshInterval : Z;
  Revisions_Revset : string;
  Ssh_HijackAskpass : bool
}.

(** Colour maps are only passed along. *)
Inductive Theme :=
| EmbeddedTheme (name : string)
| UserTheme (name : string) (base : Theme).

Inductive Colors :=
| ThemeColors (t : Theme)
| JJApplicableColors
| ConfigUIColors.

Inductive LogOutput := LogFile | LogDiscard.

(** How a declined or answered prompt ended in a stub process. *)
Inductive PromptOutcome :=
| SecretProvided (secret : list Byte.byte)
| Declined.

Inductive Event :=
| EvNewUnstartedServer (name : string)
| EvIsSubprocess
| EvFlagParse
| EvFlagUsage
| EvStdout (s : string)
| EvStderr (s : string)
| EvConfigEdit
| EvGetwd
| EvExecJJRoot (dir : string)
| EvGetenv (name : string)
| EvLogToFile (path prefix : string)
| EvLogFatal (msg : string)
| EvLogSetOutput (o : LogOutput)
| EvLogFileClose
| EvNewAppContext (root : string)
| EvHistoriesFlush
| EvLoadConfigFile
| EvConfigLoad (src : string)
| EvDeprecatedConfigWarnings (src : string)
| EvInitVM
| EvCloseVM
| EvLoadLuaConfigFile
| EvRunSetup (src : string)
| EvHasDarkBackground
| EvLoadEmbeddedTheme (name : string)
| EvLoadTheme (name : string) (base : Theme)
| EvGetApplicableColors
| EvPaletteUpdate (c : Colors)
| EvUINew
| EvNewProgram
| EvStartListening
| EvServerClose
| EvGoServeShowPassword   (* [go askpassServer.Serve(showPassword(p.Send))] *)
| EvProgramRun.

Record World := {
  Version : string;                    (* the build-time variable *)
  buildInfo : option string;           (* [info.Main.Version], when [ok] *)
  isSubprocess : bool;                 (* what [IsSubprocess()] returns *)
  promptOutcome : PromptOutcome;       (* in a stub: how the prompt ended *)
  flagParse : FlagOutcome;
  configEdit : Z;
  getwd : string + error;
  execJJRoot : string -> CmdResult;
  envDEBUG : string;
  logToFile : option error;
  initialConfig : Config;
  loadConfigFile : LoadConfigResult;
  configLoad : string -> Config -> Config * option error;
  deprecatedConfigWarnings : string -> list string;
  initVM : option error;
  loadLuaConfigFile : string + error;
  runSetup : string -> Config -> Config * option error;
  hasDarkBackground1 : bool;
  hasDarkBackground2 : bool;
  loadEmbeddedTheme : string -> option error;
  loadTheme : string -> option error;
  jjRevsetsLog : string;               (* [appContext.JJConfig.Revsets.Log] *)
  startListening : option error;
  programRun : option error
}.

Record RunState := {
  config_Current : Config;
  DefaultRevset : string;
  CurrentRevset : string;
  events : list Event;     (* oldest first *)
  deferred : list Event    (* the pending [defer]s, latest first *)
}.

(** How a piece of [run] ends: it falls through with a value, it executes a
    [return], or the process exits on the spot ([log.Fatalf], [flag]). *)
Inductive Flow (A : Type) :=
| Continue (a : A)
| Return_ (code : Z)
| Exit_ (code : Z).
Arguments Continue {A}.
Arguments Return_ {A}.
Arguments Exit_ {A}.

Definition M (A : Type) : Type := RunState -> Flow A * RunState.

Definition ret {A} (a : A) : M A := fun st => (Continue a, st).

Definition bind {A B} (m : M A) (k : A -> M B) : M B :=
  fun st =>
    match m st with
    | (Continue a, st') => k a st'
    | (Return_ c, st') => (Return_ c, st')
    | (Exit_ c, st') => (Exit_ c, st')
    end.

Notation "x <- c1 ;; c2" := (bind c1 (fun x => c2))
  (at level 61, c1 at next level, right associativity).
Notation "c1 ;; c2" := (bind c1 (fun _ => c2))
  (at level 61, right associativity).

Definition return_ {A} (code : Z) : M A := fun st => (Return_ code, st).
Definition exit_ {A} (code : Z) : M A := fun st => (Exit_ code, st).

Definition emit (e : Event) : M unit :=
  fun st => (Continue tt,
             {| config_Current := config_Current st;
                DefaultRevset := DefaultRevset st;
                CurrentRevset := CurrentRevset st;
                events := events st ++ [e];
                deferred := deferred st |}).

Definition defer (e : Event) : M unit :=
  fun st => (Continue tt,
             {| config_Current := config_Current st;
                DefaultRevset := DefaultRevset st;
                CurrentRevset := CurrentRevset st;
                events := events st;
                deferred := e :: deferred st |}).

Definition get_config : M Config := fun st => (Continue (config_Current st), st).

Definition put_config (c : Config) : M unit :=
  fun st => (Continue tt,
             {| config_Current := c;
                DefaultRevset := DefaultRevset st;
                CurrentRevset := CurrentRevset st;
                events := events st;
                deferred := deferred st |}).

Definition set_revsets (r : string) : M unit :=
  fun st => (Continue tt,
             {| config_Current := config_Current st;
                DefaultRevset := r;
                CurrentRevset := r;
                events := events st;
                deferred := deferred st |}).

Definition when (b : bool) (m : M unit) : M unit := if b then m else ret tt.

Fixpoint for_each {A} (l : list A) (body : A -> M unit) : M unit :=
  match l with
  | [] => ret tt
  | a :: l' => body a ;; for_each l' body
  end.

Definition set_Limit (n : Z) (c : Config) : Config :=
  {| Limit := n; UI_Theme_Dark := UI_Theme_Dark c;
     UI_Theme_Light := UI_Theme_Light c;
     UI_AutoRefreshInterval := UI_AutoRefreshInterval c;
     Revisions_Revset := Revisions_Revset c;
     Ssh_HijackAskpass := Ssh_HijackAskpass c |}.

Definition set_AutoRefreshInterval (n : Z) (c : Config) : Config :=
  {| Limit := Limit c; UI_Theme_Dark := UI_Theme_Dark c;
     UI_Theme_Light := UI_Theme_Light c;
     UI_AutoRefreshInterval := n;
     Revisions_Revset := Revisions_Revset c;
     Ssh_HijackAskpass := Ssh_HijackAskpass c |}.

Definition getVersion (w : World) : string :=
  if negb (Version w =? "")%string then Version w
  else match buildInfo w with
       | Some v => if negb (v =? "")%string then v else "unknown"
       | None => "unknown"
       end.

(** What one execution of [run] leaves: the status [main] hands to
    [os.Exit], the trace, and the final state.  On a [return] the pending
    [defer]s run, latest first; when the process exits on the spot they
    do not. *)
Record Outcome := {
  status : Z;
  trace : list Event;
  final : RunState
}.

(** ** The other side of the relay

    [askpass.Server.IsSubprocess], [askpass.Server.Serve] and the stub
    client are in [internal/askpass], which is not among the sources.  What
    [main], [run] and the handler do is read from the code; what these
    three do is taken from the specification. *)


(** What a stub process leaves behind. *)
Record StubRun := {
  stub_stdout : list Byte.byte;
  stub_status : Z
}.

(** Modelled from the spec: the Relay Server's [serve], for one connection
    (section 4.2): it invokes the prompt handler and writes the result back
    on the connection.  What travels is a Secret Response, raw secret bytes
    or an explicit no-answer marker (section 3); the handler's empty
    result, [nil], is the no-answer. *)
Definition serve_reply (r : GoBytes) : PromptOutcome :=
  match r with
  | Some secret => SecretProvided secret
  | None => Declined
  end.

(** Modelled from the spec: the Prompt Stub Client (section 4.4, and the
    process invocation boundary of section 6).  A response that carries
    secret bytes is written to standard output as it is and the client
    exits with success; on a no-answer the client writes nothing and exits
    with [declined], a status of its own that is not zero. *)
Definition stub_client (declined : Z) (resp : PromptOutcome) : StubRun :=
  match resp with
  | SecretProvided secret => {| stub_stdout := secret; stub_status := 0 |}
  | Declined => {| stub_stdout := []; stub_status := declined |}
  end.



Section Run.

(** [strings.TrimSpace] *)
Variable TrimSpace : string -> string.

Definition getJJRootDir (w : World) (location : string)
  : M (string + error) :=
  emit (EvExecJJRoot location) ;;
  match execJJRoot w location with
  | CmdOk output => ret (inl (TrimSpace output))
  | CmdExitError stderr => ret (inr (TrimSpace stderr))
  | CmdError e => ret (inr e)
  end.

(** Lines 105-123: the location and the root of the repository. *)
Definition locate (w : World) (fl : Flags) : M string :=
  let location := match args fl with a :: _ => a | [] => "" end in
  location <-
    (if (location =? "")%string then
       emit EvGetwd ;;
       match getwd w with
       | inl d => ret d
       | inr e =>
         emit (EvStderr ("Error: couldn't determine the current directory: "
                         ++ e ++ "." ++ nl)) ;;
         emit (EvStderr ("Please pass the location of a `jj` repo as an argument to `jjui`."
                         ++ nl)) ;;
         return_ 1
       end
     else ret location) ;;
  r <- getJJRootDir w location ;;
  match r with
  | inl rootLocation => ret rootLocation
  | inr e => emit (EvStderr (e ++ nl)) ;; return_ 1
  end.

(** Lines 125-134. *)
Definition setup_logging (w : World) : M unit :=
  emit (EvGetenv "DEBUG") ;;
  if (0 <? String.length (envDEBUG w))%nat then
    emit (EvLogToFile "debug.log" "debug") ;;
    match logToFile w with
    | Some e =>
      emit (EvLogFatal ("failed to set logging file: " ++ e)) ;; exit_ 1
    | None => defer EvLogFileClose ;; emit (EvLogSetOutput LogFile)
    end
  else emit (EvLogSetOutput LogDiscard).

(** Lines 142-153. *)
Definition load_config (w : World) : M unit :=
  emit EvLoadConfigFile ;;
  match loadConfigFile w with
  | ConfigFile output =>
    emit (EvConfigLoad output) ;;
    c <- get_config ;;
    put_config (fst (configLoad w output c)) ;;
    match snd (configLoad w output c) with
    | Some e =>
      emit (EvStderr ("Error loading configuration: " ++ e ++ nl)) ;;
      return_ 1
    | None =>
      emit (EvDeprecatedConfigWarnings output) ;;
      for_each (deprecatedConfigWarnings w output)
               (fun warning => emit (EvStderr ("Warning: " ++ warning ++ nl)))
    end
  | ConfigErrNotExist => ret tt
  | ConfigErr e => emit (EvStderr ("Error: " ++ e ++ nl)) ;; return_ 1
  end.

(** Lines 155-169. *)
Definition load_lua (w : World) : M unit :=
  emit EvInitVM ;;
  match initVM w with
  | Some e =>
    emit (EvStderr ("Error initializing Lua VM: " ++ e ++ nl)) ;; return_ 1
  | None =>
    defer EvCloseVM ;;
    emit EvLoadLuaConfigFile ;;
    match loadLuaConfigFile w with
    | inr e =>
      emit (EvStderr ("Error loading config.lua: " ++ e ++ nl)) ;; return_ 1
    | inl luaSource =>
      when (negb (luaSource =? "")%string)
           (emit (EvRunSetup luaSource) ;;
            c <- get_config ;;
            put_config (fst (runSetup w luaSource c)) ;;
            match snd (runSetup w luaSource c) with
            | Some e =>
              emit (EvStderr ("Error in config.lua: " ++ e ++ nl)) ;;
              return_ 1
            | None => ret tt
            end)
    end
  end.

(** Lines 171-199. *)
Definition load_themes (w : World) : M Theme :=
  emit EvHasDarkBackground ;;
  let defaultThemeName :=
      if hasDarkBackground1 w then "default_dark" else "default_light" in
  emit (EvLoadEmbeddedTheme defaultThemeName) ;;
  match loadEmbeddedTheme w defaultThemeName with
  | Some e =>
    emit (EvStderr ("Error loading default theme '" ++ defaultThemeName
                    ++ "': " ++ e ++ nl)) ;;
    return_ 1
  | None =>
    let theme := EmbeddedTheme defaultThemeName in
    emit EvHasDarkBackground ;;
    c <- get_config ;;
    let userThemeName :=
        if hasDarkBackground2 w then UI_Theme_Dark c else UI_Theme_Light c in
    if negb (userThemeName =? "")%string then
      emit (EvLoadTheme userThemeName theme) ;;
      match loadTheme w userThemeName with
      | Some e =>
        emit (EvStderr ("Error loading user theme '" ++ userThemeName
                        ++ "': " ++ e ++ nl)) ;;
        return_ 1
      | None => ret (UserTheme userThemeName theme)
      end
    else ret theme
  end.

(** Lines 217-234: the program, the askpass server and the event loop. *)
Definition start_ui (w : World) : M Z :=
  emit EvUINew ;;
  emit EvNewProgram ;;
  c <- get_config ;;
  when (Ssh_HijackAskpass c)
       (emit EvStartListening ;;
        match startListening w with
        | Some e =>
          emit (EvStderr ("Error: ssh.hijack_askpass: " ++ e ++ nl)) ;;
          return_ 1
        | None => defer EvServerClose ;; emit EvGoServeShowPassword
        end) ;;
  emit EvProgramRun ;;
  match programRun w with
  | Some e => emit (EvStdout ("Error running program: " ++ e ++ nl)) ;;
              return_ 1
  | None => return_ 0
  end.

(** Lines 93-234: what [run] does as the primary application. *)
Definition run_primary (w : World) : M Z :=
  emit EvFlagParse ;;
  match flagParse w with
  | ParseExit code => exit_ code
  | Parsed fl =>
    if help fl then emit EvFlagUsage ;; return_ 0
    else if version fl then
      emit (EvStdout (getVersion w ++ nl)) ;; return_ 0
    else if editConfig fl then emit EvConfigEdit ;; return_ (configEdit w)
    else
      rootLocation <- locate w fl ;;
      setup_logging w ;;
      when (0 <? limit fl)
           (c <- get_config ;; put_config (set_Limit (limit fl) c)) ;;
      emit (EvNewAppContext rootLocation) ;;
      defer EvHistoriesFlush ;;
      load_config w ;;
      load_lua w ;;
      theme <- load_themes w ;;
      emit (EvPaletteUpdate (ThemeColors theme)) ;;
      emit EvGetApplicableColors ;;
      emit (EvPaletteUpdate JJApplicableColors) ;;
      emit (EvPaletteUpdate ConfigUIColors) ;;
      when (0 <=? period fl)
           (c <- get_config ;;
            put_config (set_AutoRefreshInterval (period fl) c)) ;;
      c <- get_config ;;
      set_revsets
        (if negb (revset fl =? "")%string then revset fl
         else if negb (Revisions_Revset c =? "")%string
              then Revisions_Revset c
              else jjRevsetsLog w) ;;
      start_ui w
  end.

Definition run_body (w : World) : M Z :=
  emit (EvNewUnstartedServer "JJUI") ;;
  emit EvIsSubprocess ;;
  if isSubprocess w then return_ 0 else run_primary w.

Definition run (w : World) : Outcome :=
  let init := {| config_Current := initialConfig w;
                 DefaultRevset := ""; CurrentRevset := "";
                 events := []; deferred := [] |} in
  match run_body w init with
  | (Continue code, st) | (Return_ code, st) =>
    {| status := code; trace := events st ++ deferred st; final := st |}
  | (Exit_ code, st) =>
    {| status := code; trace := events st; final := st |}
  end.


End Run.

(** ** Sample worlds *)

Definition defaultFlags : Flags :=
  {| revset := ""; period := -1; limit := 0; version := false;
     editConfig := false; help := false; args := [] |}.

Definition defaultConfig (hijack : bool) : Config :=
  {| Limit := 0; UI_Theme_Dark := ""; UI_Theme_Light := "";
     UI_AutoRefreshInterval := 0; Revisions_Revset := "";
     Ssh_HijackAskpass := hijack |}.

(** A primary process in a repository at [/repo], no configuration file, no
    [config.lua], everything else succeeding. *)
Definition primaryWorld (hijack : bool) (listen : option error) : World :=
  {| Version := "v0"; buildInfo := None;
     isSubprocess := false; promptOutcome := Declined;
     flagParse := Parsed defaultFlags;
     configEdit := 0;
     getwd := inl "/repo";
     execJJRoot := fun _ => CmdOk "/repo";
     envDEBUG := "";
     logToFile := None;
     initialConfig := defaultConfig hijack;
     loadConfigFile := ConfigErrNotExist;
     configLoad := fun _ c => (c, None);
     deprecatedConfigWarnings := fun _ => [];
     initVM := None;
     loadLuaConfigFile := inl "";
     runSetup := fun _ c => (c, None);
     hasDarkBackground1 := true;
     hasDarkBackground2 := true;
     loadEmbeddedTheme := fun _ => None;
     loadTheme := fun _ => None;
     jjRevsetsLog := "present(@)";
     startListening := listen;
     programRun := None |}.

(** A stub process: [IsSubprocess()] returns [true]. *)
Definition stubWorld (o : PromptOutcome) : World :=
  {| Version := "v0"; buildInfo := None;
     isSubprocess := true; promptOutcome := o;
     flagParse := Parsed defaultFlags;
     configEdit := 0;
     getwd := inl "/repo";
     execJJRoot := fun _ => CmdOk "/repo";
     envDEBUG := "";
     logToFile := None;
     initialConfig := defaultConfig true;
     loadConfigFile := ConfigErrNotExist;
     configLoad := fun _ c => (c, None);
     deprecatedConfigWarnings := fun _ => [];
     initVM := None;
     loadLuaConfigFile := inl "";
     runSetup := fun _ c => (c, None);
     hasDarkBackground1 := true;
     hasDarkBackground2 := true;
     loadEmbeddedTheme := fun _ => None;
     loadTheme := fun _ => None;
     jjRevsetsLog := "present(@)";
     startListening := None;
     programRun := None |}.

(** [strings.TrimSpace] has nothing to trim in the sample worlds. *)
Definition noTrim (s : string) : string := s.

(** ** Predicates used in the statements *)

Open Scope list_scope.

(** The show message of an invocation with prompt [prompt] and result
    channel [ch]. *)
Definition showMsg (prompt : string) (ch : chan_id) : TogglePasswordMsg :=
  {| Prompt := adjustPrompt prompt; Password := Some ch |}.

(** What holds of an invocation started with the log [log], after the values
    [D] were sent on the result channel and with [F] telling whether [done]
    is ready. *)
Definition Inv (prompt : string) (ch : chan_id) (log : list TogglePasswordMsg)
           (D : list GoBytes) (F : bool)
           (st : HState (list TogglePasswordMsg)) : Prop :=
  done st = F /\ (List.length (password st) <= 1)%nat /\
  match pc st with
  | AtEntry => ui st = log /\ taken st = [] /\ password st = [] /\ D = []
  | AtSelect => ui st = log ++ [showMsg prompt ch] /\ taken st = []
                /\ password st = D
  | Parked => ui st = log ++ [showMsg prompt ch] /\ taken st = []
              /\ password st = [] /\ D = [] /\ F = false
  | InCaseDone => ui st = log ++ [showMsg prompt ch] /\ taken st = [CaseDone]
                  /\ password st = D /\ F = true
  | InCasePassword pw => ui st = log ++ [showMsg prompt ch]
                         /\ taken st = [CasePassword] /\ D = pw :: password st
  | Returned r =>
    (ui st = log ++ [showMsg prompt ch; TogglePasswordMsg_zero]
     /\ taken st = [CaseDone] /\ r = None /\ password st = D /\ F = true)
    \/ (ui st = log ++ [showMsg prompt ch]
        /\ taken st = [CasePassword] /\ D = r :: password st)
  end.

Definition fires (a : Action) : bool :=
  match a with FireDone => true | _ => false end.

(** The events of lines 217-234, which no earlier line of [run] produces. *)
Definition ui_event (e : Event) : bool :=
  match e with
  | EvUINew | EvNewProgram | EvStartListening | EvServerClose
  | EvGoServeShowPassword | EvProgramRun => true
  | _ => false
  end.

Definition quiet (e : Event) : Prop := ui_event e = false.

(** What lines 217-234 add to the trace, defer, and return, under the
    configuration [c]. *)
Definition tail_events (w : World) (c : Config) : list Event :=
  [EvUINew; EvNewProgram] ++
  (if Ssh_HijackAskpass c then
     match startListening w with
     | Some e => [EvStartListening;
                  EvStderr ("Error: ssh.hijack_askpass: " ++ e ++ nl)%string]
     | None => [EvStartListening; EvGoServeShowPassword; EvProgramRun]
     end
   else [EvProgramRun]) ++
  match (if Ssh_HijackAskpass c then startListening w else None),
        programRun w with
  | None, Some e => [EvStdout ("Error running program: " ++ e ++ nl)%string]
  | _, _ => []
  end.

Definition tail_defers (w : World) (c : Config) : list Event :=
  if Ssh_HijackAskpass c then
    match startListening w with
    | Some _ => []
    | None => [EvServerClose]
    end
  else [].

Definition tail_status (w : World) (c : Config) : Z :=
  match (if Ssh_HijackAskpass c then startListening w else None),
        programRun w with
  | None, None => 0
  | _, _ => 1
  end.

(** A piece of [run] that stays clear of lines 217-234. *)
Definition quiet_m {A} (m : M A) : Prop :=
  forall st, exists es ds,
      events (snd (m st)) = events st ++ es
      /\ deferred (snd (m st)) = ds ++ deferred st
      /\ Forall quiet es /\ Forall quiet ds.

(** A piece of [run] that either ends early, clear of lines 217-234, or
    ends with them. *)
Definition Shape (w : World) (f : Flow Z) (es ds : list Event) (c : Config)
  : Prop :=
  (Forall quiet es /\ Forall quiet ds
   /\ ((exists code, f = Return_ code) \/ (exists code, f = Exit_ code)))
  \/ (exists es0 ds0,
         Forall quiet es0 /\ Forall quiet ds0
         /\ es = es0 ++ tail_events w c
         /\ ds = tail_defers w c ++ ds0
         /\ f = Return_ (tail_status w c)).

Definition shaped (w : World) (m : M Z) : Prop :=
  forall st, exists es ds,
      events (snd (m st)) = events st ++ es
      /\ deferred (snd (m st)) = ds ++ deferred st
      /\ Shape w (fst (m st)) es ds (config_Current (snd (m st))).

(** ** Sample invocations *)

(** The bytes of [pw]. *)
Definition sampleSecret : list Byte.byte := [Byte.x70; Byte.x77].

(** The handler posts the show message; [done] becomes ready; the secret is
    sent on the result channel; only then does the handler evaluate its
    [select], with both cases ready, and the runtime picks the second. *)
Definition racySchedule : list Action :=
  [Handler CaseDone; FireDone; Deliver (Some sampleSecret);
   Handler CasePassword; Handler CasePassword].

(** [done] is ready before the handler is called; the handler posts the
    show message and the secret is sent before the handler evaluates its
    [select]: both cases are ready, and the runtime picks the second. *)
Definition cancelledThenAnswered : list Action :=
  [FireDone; Handler CaseDone; Deliver (Some sampleSecret);
   Handler CasePassword; Handler CasePassword].

(** The handler posts the show message; the secret is sent; [done] becomes
    ready; only then does the handler evaluate its [select], with both
    cases ready, and the runtime picks the first. *)
Definition answeredThenCancelled : list Action :=
  [Handler CaseDone; Deliver (Some sampleSecret); FireDone;
   Handler CaseDone; Handler CaseDone].

(** ** Predicates for the pieces of [run] *)

(** [be] and [bd] mark the events a piece of [run] neither produces nor
    defers. *)
Definition clear (b : Event -> bool) (l : list Event) : Prop :=
  Forall (fun e => b e = false) l.

Definition confined (be bd : Event -> bool) {A} (m : M A) : Prop :=
  forall st, exists es ds,
      events (snd (m st)) = events st ++ es
      /\ deferred (snd (m st)) = ds ++ deferred st
      /\ clear be es /\ clear bd ds.

(** How a piece of [run] may end: falling through with a value in [okC],
    returning a code in [okR], exiting on the spot with a code in [okE]. *)
Definition flows {A} (okC : A -> Prop) (okR okE : Z -> Prop) (m : M A)
  : Prop :=
  forall st,
    match fst (m st) with
    | Continue a => okC a
    | Return_ code => okR code
    | Exit_ code => okE code
    end.

Definition anything {A} (a : A) : Prop := True.
Definition nothing {A} (a : A) : Prop := False.

(** A piece that falls through only when [P] holds. *)
Definition continues_only_if (P : Prop) {A} (m : M A) : Prop :=
  forall st a, fst (m st) = Continue a -> P.

(** A piece of [run] that ends early, clear of [be] and [bd], or gets to a
    state [mid], clear of them, from which [Q] describes how it ends. *)
Definition ends_with (be bd : Event -> bool)
           (Q : RunState -> Flow Z -> RunState -> Prop) (m : M Z) : Prop :=
  forall st,
    (exists es ds,
        events (snd (m st)) = events st ++ es
        /\ deferred (snd (m st)) = ds ++ deferred st
        /\ clear be es /\ clear bd ds
        /\ ((exists code, fst (m st) = Return_ code)
            \/ (exists code, fst (m st) = Exit_ code)))
    \/ (exists mid es ds,
           events mid = events st ++ es
           /\ deferred mid = ds ++ deferred st
           /\ clear be es /\ clear bd ds
           /\ Q mid (fst (m st)) (snd (m st))).

(** An exit on the spot finds no [defer] pending, if none was at the
    start. *)
Definition exit_clean {A} (m : M A) : Prop :=
  forall st code,
    deferred st = [] -> fst (m st) = Exit_ code -> deferred (snd (m st)) = [].

(** The events that tell the user something went wrong. *)
Definition is_message (e : Event) : bool :=
  match e with
  | EvStderr _ | EvStdout _ | EvLogFatal _ => true
  | _ => false
  end.

(** A piece that does not end a run with a status other than 0 unless a
    message was written, by itself or ([seen]) before it. *)
Definition loud (seen : bool) {A} (m : M A) : Prop :=
  forall st, exists es,
      events (snd (m st)) = events st ++ es
      /\ match fst (m st) with
         | Continue _ => True
         | Return_ code | Exit_ code =>
           code = 0 \/ seen = true
           \/ Exists (fun e => is_message e = true) es
         end.

Definition no_event (e : Event) : bool := false.
Definition any_event (e : Event) : bool := true.

Definition is_app_context (e : Event) : bool :=
  match e with
  | EvNewAppContext _ | EvHistoriesFlush => true
  | _ => false
  end.

(** The events of line 140 and after it that a [defer] answers or that
    belong to the event loop. *)
Definition from_context (e : Event) : bool :=
  match e with
  | EvNewAppContext _ | EvHistoriesFlush | EvInitVM | EvCloseVM
  | EvUINew | EvNewProgram | EvStartListening | EvServerClose
  | EvGoServeShowPassword | EvProgramRun => true
  | _ => false
  end.

Definition not_log_close (e : Event) : bool :=
  match e with
  | EvLogFileClose => false
  | _ => true
  end.

Definition is_vm (e : Event) : bool :=
  match e with
  | EvInitVM | EvCloseVM => true
  | _ => false
  end.

Definition is_jj_root (e : Event) : bool :=
  match e with
  | EvExecJJRoot _ => true
  | _ => false
  end.

Definition is_program_run (e : Event) : bool :=
  match e with
  | EvProgramRun => true
  | _ => false
  end.

(** [defaultThemeName] of line 173. *)
Definition defaultThemeName (w : World) : string :=
  if hasDarkBackground1 w then "default_dark" else "default_light".

(** The revset lines 208-214 choose. *)
Definition chosenRevset (w : World) (fl : Flags) (c : Config) : string :=
  if negb (revset fl =? "")%string then revset fl
  else if negb (Revisions_Revset c =? "")%string then Revisions_Revset c
       else jjRevsetsLog w.

(** A piece that, when it falls through, has turned the configuration [c]
    into [g c]. *)
Definition config_after (g : Config -> Config) {A} (m : M A) : Prop :=
  forall st a,
    fst (m st) = Continue a ->
    config_Current (snd (m st)) = g (config_Current st).

(** A piece that, when it has run the event loop, has turned the
    configuration [c] into [g c]. *)
Definition config_at_event_loop (g : Config -> Config) (m : M Z) : Prop :=
  forall st, exists es ds,
      events (snd (m st)) = events st ++ es
      /\ deferred (snd (m st)) = ds ++ deferred st
      /\ clear is_program_run ds
      /\ (In EvProgramRun es ->
          config_Current (snd (m st)) = g (config_Current st)).

(** What lines 136-207 make of the configuration [c], in the order they
    apply: [--limit], the configuration file, [config.lua], [--period]. *)
Definition after_limit (fl : Flags) (c : Config) : Config :=
  if 0 <? limit fl then set_Limit (limit fl) c else c.

Definition after_config_file (w : World) (c : Config) : Config :=
  match loadConfigFile w with
  | ConfigFile output => fst (configLoad w output c)
  | _ => c
  end.

Definition after_config_lua (w : World) (c : Config) : Config :=
  match loadLuaConfigFile w with
  | inl luaSource =>
    if negb (luaSource =? "")%string then fst (runSetup w luaSource c) else c
  | inr _ => c
  end.

Definition after_period (fl : Flags) (c : Config) : Config :=
  if 0 <=? period fl then set_AutoRefreshInterval (period fl) c else c.

Definition configured (w : World) (fl : Flags) (c : Config) : Config :=
  after_period fl (after_config_lua w (after_config_file w (after_limit fl c))).

(** ** More sample worlds *)

(** The primary process of [primaryWorld], with the flags [fl], what [jj
    root] answers and how the event loop ends. *)
Definition worldWith (fl : Flags) (jj : CmdResult) (loop : option error)
  : World :=
  {| Version := ""; buildInfo := Some "v0.9.3";
     isSubprocess := false; promptOutcome := Declined;
     flagParse := Parsed fl;
     configEdit := 0;
     getwd := inl "/repo";
     execJJRoot := fun _ => jj;
     envDEBUG := "";
     logToFile := None;
     initialConfig := defaultConfig true;
     loadConfigFile := ConfigErrNotExist;
     configLoad := fun _ c => (c, None);
     deprecatedConfigWarnings := fun _ => [];
     initVM := None;
     loadLuaConfigFile := inl "";
     runSetup := fun _ c => (c, None);
     hasDarkBackground1 := true;
     hasDarkBackground2 := true;
     loadEmbeddedTheme := fun _ => None;
     loadTheme := fun _ => None;
     jjRevsetsLog := "present(@)";
     startListening := None;
     programRun := loop |}.

(** [jjui --help] *)
Definition helpFlags : Flags :=
  {| revset := ""; period := -1; limit := 0; version := false;
     editConfig := false; help := true; args := [] |}.

(** [jjui -r main -p 5 -n 50] *)
Definition tunedFlags : Flags :=
  {| revset := "main"; period := 5; limit := 50; version := false;
     editConfig := false; help := false; args := [] |}.

(** [jj root] outside a repository. *)
Definition noRepo : CmdResult :=
  CmdExitError "Error: There is no jj repo here".

(** * Properties *)

(** ** Prompt normalisation *)

Lemma adjustPrompt_loop_space (rs : list rune) (s : string) :
  Forall (fun r => unicode.IsSpace r = true) rs ->
  adjustPrompt_loop rs s = fallbackPrompt.
Proof.
  induction 1 as [|r rs Hr _ IH]; simpl.
  - reflexivity.
  - now rewrite Hr.
Qed.

Lemma adjustPrompt_loop_nonspace (rs : list rune) (s : string) :
  Exists (fun r => unicode.IsSpace r = false) rs ->
  adjustPrompt_loop rs s = s.
Proof.
  induction 1 as [r rs Hr | r rs _ IH]; simpl.
  - now rewrite Hr.
  - destruct (unicode.IsSpace r); simpl; auto.
Qed.

(** A byte below [RuneSelf] is a rune of its own wherever it stands. *)
Lemma runes_ascii (c : ascii) (s : string) :
  byteZ c < utf8.RuneSelf ->
  utf8.runes (String c s) = byteZ c :: utf8.runes s.
Proof.
  intros H. simpl.
  destruct (Z.ltb_spec (byteZ c) utf8.RuneSelf); [reflexivity | lia].
Qed.

(** C10.  [adjustPrompt] returns its argument unchanged whenever one of its
    runes is not white space. *)
Theorem adjustPrompt_identity (s : string) :
  Exists (fun r => unicode.IsSpace r = false) (utf8.runes s) ->
  adjustPrompt s = s.
Proof.
  intros H. unfold adjustPrompt.
  now apply adjustPrompt_loop_nonspace.
Qed.

(** ** The prompt handler: what every schedule preserves *)

Ltac break_match_in H :=
  repeat match type of H with
         | context [match ?x with _ => _ end] => destruct x eqn:?; simpl in H
         | context [if ?x then _ else _] => destruct x eqn:?; simpl in H
         end; try discriminate.

Ltac some_inv H := injection H as <-; simpl.

Section HandlerFacts.

Variables (name prompt : string) (ch : chan_id).
Variable log : list TogglePasswordMsg.

Local Abbreviation step' := (step post name prompt ch).
Local Abbreviation exec' := (exec post name prompt ch).
Local Abbreviation Inv' := (Inv prompt ch log).

Lemma Inv_entry (d : bool) : Inv' [] d (entry log d).
Proof. unfold Inv, entry; simpl; repeat split; auto. Qed.

Lemma step_Inv (a : Action) (D : list GoBytes) (F : bool) st st' :
  Inv' D F st -> step' a st = Some st' ->
  Inv' (D ++ deliveries [a]) (F || fires a) st'.
Proof.
  destruct st as [p u buf dn tk].
  unfold Inv; simpl. intros (Hd & Hl & Hp) H.
  destruct a as [pick | | pw]; simpl in H.
  - rewrite app_nil_r, orb_false_r.
    unfold handler_step in H; simpl in H.
    destruct p; simpl in *; break_match_in H; some_inv H;
      unfold post; intuition (subst; simpl in *; auto; try lia; try discriminate).
    + left. rewrite <- app_assoc. auto.
  - rewrite app_nil_r.
    unfold fire_done in H; simpl in H.
    destruct p; simpl in *; break_match_in H; some_inv H;
      rewrite ?orb_true_r;
      intuition (subst; simpl in *; auto; try lia; try discriminate).
  - rewrite orb_false_r.
    unfold deliver in H; simpl in H.
    destruct p; simpl in *; break_match_in H; some_inv H;
      destruct buf; simpl in *; try discriminate;
      intuition (subst; simpl in *; auto; try lia; try discriminate).
Qed.

Lemma deliveries_cons (a : Action) (sched : list Action) :
  deliveries (a :: sched) = deliveries [a] ++ deliveries sched.
Proof. destruct a; reflexivity. Qed.

Lemma exec_Inv (sched : list Action) : forall D F st st',
  Inv' D F st -> exec' sched st = Some st' ->
  Inv' (D ++ deliveries sched) (F || existsb fires sched) st'.
Proof.
  induction sched as [|a sched IH]; intros D F st st' HI H; simpl in H.
  - injection H as <-. simpl. now rewrite app_nil_r, orb_false_r.
  - destruct (step' a st) as [st1|] eqn:Ha; [|discriminate].
    rewrite deliveries_cons, app_assoc. simpl existsb. rewrite orb_assoc.
    eapply IH; [|exact H]. eapply step_Inv; eauto.
Qed.

Lemma exec_entry_Inv (d : bool) (sched : list Action) st :
  exec' sched (entry log d) = Some st ->
  Inv' (deliveries sched) (d || existsb fires sched) st.
Proof.
  intros H. apply (exec_Inv sched [] d _ _ (Inv_entry d) H).
Qed.

(** Once the [select] has chosen, neither the value to return nor the
    record of the choice changes. *)
Lemma step_result (a : Action) st st' :
  step' a st = Some st' -> result st <> None ->
  result st' = result st /\ taken st' = taken st.
Proof.
  destruct st as [p u buf dn tk]; unfold result; simpl.
  intros H Hr.
  destruct a as [pick | | pw]; simpl in H;
    [unfold handler_step in H | unfold fire_done in H | unfold deliver in H];
    simpl in H; destruct p; simpl in *; try congruence;
      break_match_in H; some_inv H; auto.
Qed.

Lemma exec_result (sched : list Action) : forall st st',
  exec' sched st = Some st' -> result st <> None ->
  result st' = result st /\ taken st' = taken st.
Proof.
  induction sched as [|a sched IH]; simpl; intros st st' H Hr.
  - injection H as <-. auto.
  - destruct (step' a st) as [st1|] eqn:Ha; [|discriminate].
    destruct (step_result _ _ _ Ha Hr) as [E1 E2].
    assert (Hr1 : result st1 <> None) by congruence.
    destruct (IH _ _ H Hr1) as [E3 E4]. split; congruence.
Qed.

Lemma Inv_ui D F st :
  Inv' D F st -> pc st <> AtEntry ->
  exists rest, ui st = log ++ showMsg prompt ch :: rest.
Proof.
  intros (_ & _ & Hp) Hne.
  destruct (pc st); try congruence;
    try (exists []; tauto).
  destruct Hp as [Hp | Hp]; [exists [TogglePasswordMsg_zero] | exists []];
    tauto.
Qed.

(** No case entered and nothing to return yet, or exactly one case. *)
Lemma Inv_taken D F st :
  Inv' D F st ->
  (result st = None /\ taken st = [])
  \/ (exists c, taken st = [c] /\ result st <> None).
Proof.
  intros (_ & _ & Hp). unfold result.
  destruct (pc st); try (left; tauto);
    try (right; eexists; split; [apply Hp | discriminate]).
  right. destruct Hp as [Hp | Hp]; eexists; (split; [apply Hp | discriminate]).
Qed.

(** C3.  For every prompt, the first message the handler posts is the show
    message, it carries the result channel, and its [Prompt] is the
    fallback label when every rune of the prompt is white space (the empty
    prompt included) and the prompt itself when some rune is not. *)
Theorem showPassword_prompt_label (d : bool) (sched : list Action) st :
  exec' sched (entry log d) = Some st ->
  pc st <> AtEntry ->
  exists m rest,
    ui st = log ++ m :: rest
    /\ Password m = Some ch
    /\ (Forall (fun r => unicode.IsSpace r = true) (utf8.runes prompt) ->
        Prompt m = "ssh-askpass: ")
    /\ (Exists (fun r => unicode.IsSpace r = false) (utf8.runes prompt) ->
        Prompt m = prompt).
Proof.
  intros H Hne.
  destruct (Inv_ui _ _ _ (exec_entry_Inv _ _ _ H) Hne) as [rest E].
  exists (showMsg prompt ch), rest. repeat split; auto; simpl.
  - apply adjustPrompt_loop_space.
  - apply adjustPrompt_loop_nonspace.
Qed.

(** C4, as amended.  Exactly one case of the [select] is entered per
    invocation and the choice is final: whatever fires later changes
    neither the case nor the value returned.  A handler parked in the
    [select] takes the case of the first signal; a handler that reaches
    the [select] with one case ready takes that case, and with both ready
    takes the one the runtime picks.  Once [case <-done] is entered the
    result is [nil], and a secret sent afterwards into the empty result
    channel is buffered without blocking and changes nothing else. *)
Theorem select_case_exclusive (d : bool) (sched : list Action) st :
  exec' sched (entry log d) = Some st ->
  ((result st = None /\ taken st = [])
   \/ (exists c, taken st = [c] /\ result st <> None))
  /\ (forall later st',
         exec' later st = Some st' -> result st <> None ->
         result st' = result st /\ taken st' = taken st)
  /\ (pc st = Parked ->
      (exists st', step' FireDone st = Some st'
                   /\ taken st' = [CaseDone] /\ result st' = Some None)
      /\ (forall pw, exists st',
              step' (Deliver pw) st = Some st'
              /\ taken st' = [CasePassword] /\ result st' = Some pw))
  /\ (pc st = AtSelect -> forall pick,
        (done st = true -> password st = [] ->
         exists st', step' (Handler pick) st = Some st'
                     /\ taken st' = [CaseDone] /\ result st' = Some None)
        /\ (done st = false -> forall pw buf, password st = pw :: buf ->
            exists st', step' (Handler pick) st = Some st'
                        /\ taken st' = [CasePassword]
                        /\ result st' = Some pw)
        /\ (done st = true -> forall pw buf, password st = pw :: buf ->
            exists st', step' (Handler pick) st = Some st'
                        /\ taken st' = [pick]))
  /\ (taken st = [CaseDone] ->
      result st = Some None
      /\ forall pw, password st = [] ->
           exists st', step' (Deliver pw) st = Some st'
                       /\ pc st' = pc st /\ ui st' = ui st
                       /\ taken st' = taken st /\ done st' = done st
                       /\ password st' = [pw]).
Proof.
  intros H. pose proof (exec_entry_Inv _ _ _ H) as HI.
  split; [exact (Inv_taken _ _ _ HI)|].
  split; [intros later st'; apply exec_result|].
  destruct HI as (Hd & Hl & Hp).
  destruct st as [p u buf dn tk]; simpl in *.
  split; [|split].
  - intros ->. destruct Hp as (_ & -> & -> & _ & HF).
    rewrite HF in Hd; subst dn. split.
    + eexists; repeat split.
    + intros pw. eexists; repeat split.
  - intros -> pick. destruct Hp as (_ & -> & _).
    split; [|split].
    + intros -> ->. eexists; repeat split.
    + intros -> pw buf' ->. eexists; repeat split.
    + intros -> pw buf' ->. destruct pick; eexists; repeat split.
  - intros ->. unfold result; simpl.
    assert (Hpc : p = InCaseDone \/ p = Returned None).
    { destruct p; try (destruct Hp as (_ & Ht & _); discriminate); auto.
      destruct Hp as [(_ & _ & -> & _) | (_ & Ht & _)];
        [auto | discriminate]. }
    split.
    + destruct Hpc as [-> | ->]; reflexivity.
    + intros pw ->. unfold deliver; simpl.
      destruct Hpc as [-> | ->]; eexists; repeat split.
Qed.

(** After its [return] the handler is out of reach of the other
    goroutines. *)
Lemma exec_returned (sched : list Action) : forall st st' r,
  exec' sched st = Some st' -> pc st = Returned r ->
  pc st' = Returned r /\ ui st' = ui st /\ taken st' = taken st.
Proof.
  induction sched as [|a sched IH]; simpl; intros st st' r H Hr.
  - injection H as <-. auto.
  - destruct (step' a st) as [st1|] eqn:Ha; [|discriminate].
    assert (pc st1 = Returned r /\ ui st1 = ui st /\ taken st1 = taken st)
      as (E1 & E2 & E3).
    { destruct st as [p u buf dn tk]; simpl in *; subst p.
      destruct a as [pick | | pw]; simpl in Ha;
        [unfold handler_step in Ha | unfold fire_done in Ha
         | unfold deliver in Ha];
        simpl in Ha; break_match_in Ha; some_inv Ha; auto. }
    destruct (IH _ _ _ H E1) as (E4 & E5 & E6).
    repeat split; congruence.
Qed.

(** C5, as amended.  When [done] is ready and no secret has been sent by
    the time the handler gets to run, the handler returns within three
    steps: it has posted the show message and then one hide message, the
    zero [TogglePasswordMsg], and it returns [nil]; nothing that happens
    later alters that.  A handler parked in the [select] that [done] wakes
    does the same in one step.  Whenever the [select] was resolved while no
    secret had been sent, and whenever [case <-done] was the case entered,
    the handler returns [nil] after exactly those two messages, whatever is
    sent afterwards. *)
Theorem cancel_posts_hide_and_returns_nil
        (d : bool) (sched : list Action) st (pick : Case) :
  exec' sched (entry log d) = Some st ->
  deliveries sched = [] ->
  done st = true ->
  (pc (run_handler post 3 name prompt ch pick st) = Returned None
   /\ ui (run_handler post 3 name prompt ch pick st)
      = log ++ [showMsg prompt ch; {| Prompt := ""; Password := None |}]
   /\ taken (run_handler post 3 name prompt ch pick st) = [CaseDone])
  /\ (forall later st',
         exec' later (run_handler post 3 name prompt ch pick st) = Some st' ->
         pc st' = Returned None
         /\ ui st' = log ++ [showMsg prompt ch;
                              {| Prompt := ""; Password := None |}])
  /\ (forall d2 sched2 st2 r,
         exec' sched2 (entry log d2) = Some st2 ->
         taken st2 = [CaseDone] -> pc st2 = Returned r ->
         r = None
         /\ ui st2 = log ++ [showMsg prompt ch;
                              {| Prompt := ""; Password := None |}])
  /\ (forall d2 pre later st1 st2 r,
         exec' pre (entry log d2) = Some st1 ->
         deliveries pre = [] -> result st1 <> None ->
         exec' later st1 = Some st2 -> pc st2 = Returned r ->
         r = None
         /\ ui st2 = log ++ [showMsg prompt ch;
                              {| Prompt := ""; Password := None |}])
  /\ (forall sched2 st2 pick2,
         exec' sched2 (entry log false) = Some st2 -> pc st2 = Parked ->
         exists st3,
           step' FireDone st2 = Some st3
           /\ pc (run_handler post 1 name prompt ch pick2 st3) = Returned None
           /\ ui (run_handler post 1 name prompt ch pick2 st3)
              = log ++ [showMsg prompt ch;
                        {| Prompt := ""; Password := None |}]).
Proof.
  intros H HD Hdone.
  pose proof (exec_entry_Inv _ _ _ H) as (Hd & Hl & Hp).
  rewrite HD in Hp.
  assert (Hmain :
    pc (run_handler post 3 name prompt ch pick st) = Returned None
    /\ ui (run_handler post 3 name prompt ch pick st)
       = log ++ [showMsg prompt ch; TogglePasswordMsg_zero]
    /\ taken (run_handler post 3 name prompt ch pick st) = [CaseDone]).
  { destruct st as [p u buf dn tk]; simpl in *. subst dn.
    destruct p; simpl in Hp.
    - destruct Hp as (-> & -> & -> & _).
      cbn. unfold post. rewrite <- app_assoc. auto.
    - destruct Hp as (-> & -> & ->).
      cbn. unfold post. rewrite <- app_assoc. auto.
    - destruct Hp as (_ & _ & _ & _ & HF). rewrite <- Hd in HF. discriminate.
    - destruct Hp as (-> & -> & -> & _).
      cbn. unfold post. rewrite <- app_assoc. auto.
    - destruct Hp as (_ & _ & HF). discriminate.
    - destruct Hp as [(-> & -> & -> & _) | (_ & _ & HF)];
        [cbn; auto | discriminate]. }
  assert (Hdone_case : forall D F st2 r,
             Inv' D F st2 -> taken st2 = [CaseDone] -> pc st2 = Returned r ->
             r = None
             /\ ui st2 = log ++ [showMsg prompt ch; TogglePasswordMsg_zero]).
  { intros D F st2 r (_ & _ & Hp2) Ht Hr. rewrite Hr in Hp2.
    destruct Hp2 as [(E & _ & -> & _) | (_ & Ht' & _)];
      [split; [reflexivity | exact E] | congruence]. }
  split; [exact Hmain|]. split; [|split; [|split]].
  - intros later st' Hl'. destruct Hmain as (E1 & E2 & _).
    destruct (exec_returned _ _ _ _ Hl' E1) as (E3 & E4 & _).
    split; [exact E3 | rewrite E4; exact E2].
  - intros d2 sched2 st2 r H2 Ht Hr.
    exact (Hdone_case _ _ _ _ (exec_entry_Inv _ _ _ H2) Ht Hr).
  - intros d2 pre later st1 st2 r H1 HD1 Hres H2 Hr.
    pose proof (exec_entry_Inv _ _ _ H1) as HI1.
    rewrite HD1 in HI1.
    assert (Ht1 : taken st1 = [CaseDone]).
    { destruct HI1 as (_ & _ & Hp1). unfold result in Hres.
      destruct (pc st1); try congruence; try tauto.
      - destruct Hp1 as (_ & _ & E). discriminate.
      - destruct Hp1 as [Hp1 | (_ & _ & E)]; [tauto | discriminate]. }
    destruct (exec_result _ _ _ H2 Hres) as (_ & Ht2).
    rewrite Ht1 in Ht2.
    exact (Hdone_case _ _ _ _ (exec_Inv _ _ _ _ _ HI1 H2) Ht2 Hr).
  - intros sched2 st2 pick2 H2 Hpk.
    pose proof (exec_entry_Inv _ _ _ H2) as (Hd2 & _ & Hp2).
    destruct st2 as [p u buf dn tk]; simpl in *. subst p.
    destruct Hp2 as (-> & -> & -> & _ & HF).
    rewrite HF in Hd2. subst dn.
    eexists. split; [reflexivity|].
    cbn. unfold post. rewrite <- app_assoc. auto.
Qed.

(** C6, as amended.  When a secret has been sent and [done] has not become
    ready by the time the handler gets to run, the handler returns within
    three steps: it returns the value that was sent, and the show message
    is the only message it has posted.  A handler parked in the [select]
    that is handed a value returns it in one step, as silently.  Whenever
    the [select] was resolved while [done] was not ready, and whenever
    [case pw := <-password] was the case entered, the handler returns the
    first value sent on the channel after posting the show message alone,
    whatever fires afterwards. *)
Theorem completion_returns_bytes_silently
        (sched : list Action) st (pick : Case) (pw : GoBytes)
        (rest : list GoBytes) :
  exec' sched (entry log false) = Some st ->
  existsb fires sched = false ->
  deliveries sched = pw :: rest ->
  (pc (run_handler post 3 name prompt ch pick st) = Returned pw
   /\ ui (run_handler post 3 name prompt ch pick st)
      = log ++ [showMsg prompt ch]
   /\ taken (run_handler post 3 name prompt ch pick st) = [CasePassword])
  /\ (forall d2 sched2 st2 r,
         exec' sched2 (entry log d2) = Some st2 ->
         taken st2 = [CasePassword] -> pc st2 = Returned r ->
         hd_error (deliveries sched2) = Some r
         /\ ui st2 = log ++ [showMsg prompt ch])
  /\ (forall pre later st1 st2 r,
         exec' pre (entry log false) = Some st1 ->
         existsb fires pre = false -> result st1 <> None ->
         exec' later st1 = Some st2 -> pc st2 = Returned r ->
         hd_error (deliveries pre) = Some r
         /\ ui st2 = log ++ [showMsg prompt ch])
  /\ (forall sched2 st2 pick2 pw2,
         exec' sched2 (entry log false) = Some st2 -> pc st2 = Parked ->
         exists st3,
           step' (Deliver pw2) st2 = Some st3
           /\ pc (run_handler post 1 name prompt ch pick2 st3) = Returned pw2
           /\ ui (run_handler post 1 name prompt ch pick2 st3)
              = log ++ [showMsg prompt ch]).
Proof.
  intros H HF HD.
  pose proof (exec_entry_Inv _ _ _ H) as (Hd & Hl & Hp).
  rewrite HD, HF in Hp. rewrite HF in Hd. simpl in Hd, Hp.
  split; [|split; [|split]].
  - destruct st as [p u buf dn tk]; simpl in *. subst dn.
    destruct p; simpl in Hp.
    + destruct Hp as (_ & _ & _ & HF'). discriminate.
    + destruct Hp as (-> & -> & ->). cbn. auto.
    + destruct Hp as (_ & _ & _ & HF' & _). discriminate.
    + destruct Hp as (_ & _ & _ & HF'). discriminate.
    + destruct Hp as (-> & -> & E). injection E as <- <-. cbn. auto.
    + destruct Hp as [(_ & _ & _ & _ & HF') | (-> & -> & E)];
        [discriminate|].
      injection E as <- <-. cbn. auto.
  - intros d2 sched2 st2 r H2 Ht Hr.
    pose proof (exec_entry_Inv _ _ _ H2) as (_ & _ & Hp2).
    rewrite Hr in Hp2.
    destruct Hp2 as [(_ & Ht' & _) | (E & _ & ->)]; [congruence | auto].
  - intros pre later st1 st2 r H1 HF1 Hres H2 Hr.
    pose proof (exec_entry_Inv _ _ _ H1) as HI1.
    rewrite HF1 in HI1. simpl in HI1.
    assert (Ht1 : taken st1 = [CasePassword]
                  /\ exists pw1, result st1 = Some pw1
                                 /\ hd_error (deliveries pre) = Some pw1).
    { destruct HI1 as (_ & _ & Hp1). unfold result in *.
      destruct (pc st1); try congruence.
      - destruct Hp1 as (_ & _ & _ & E). discriminate.
      - destruct Hp1 as (_ & Ht & E). split; [exact Ht|].
        eexists; split; [reflexivity | rewrite E; reflexivity].
      - destruct Hp1 as [(_ & _ & _ & _ & E) | (_ & Ht & E)];
          [discriminate|].
        split; [exact Ht|].
        eexists; split; [reflexivity | rewrite E; reflexivity]. }
    destruct Ht1 as (Ht1 & pw1 & Er1 & Eh1).
    destruct (exec_result _ _ _ H2 Hres) as (Er2 & Ht2).
    rewrite Ht1 in Ht2. rewrite Er1 in Er2.
    unfold result in Er2. rewrite Hr in Er2. injection Er2 as ->.
    split; [exact Eh1|].
    pose proof (exec_Inv _ _ _ _ _ HI1 H2) as (_ & _ & Hp2).
    rewrite Hr in Hp2.
    destruct Hp2 as [(_ & Ht' & _) | (E & _)]; [congruence | exact E].
  - intros sched2 st2 pick2 pw2 H2 Hpk.
    pose proof (exec_entry_Inv _ _ _ H2) as (_ & _ & Hp2).
    destruct st2 as [p u buf dn tk]; simpl in *. subst p.
    destruct Hp2 as (-> & -> & -> & _).
    eexists. split; [reflexivity|]. cbn. auto.
Qed.

(** C8.  A secret of any length comes back from the handler as it was
    sent on the result channel, whether it waited in the buffer or was
    handed to a parked handler: whenever the handler returns through
    [case pw := <-password] and the first value sent was [secret], it
    returns [secret], byte for byte.  Written back on the connection by
    the relay and printed by the stub client, as the specification has
    them, it is [secret] that reaches the stub's standard output, with
    nothing added and nothing stripped, and the stub exits with 0. *)
Theorem secret_returned_unmodified
        (secret : list Byte.byte) (declined : Z) (d : bool)
        (sched : list Action) st (r : GoBytes) :
  exec' sched (entry log d) = Some st ->
  pc st = Returned r ->
  taken st = [CasePassword] ->
  hd_error (deliveries sched) = Some (Some secret) ->
  r = Some secret
  /\ stub_stdout (stub_client declined (serve_reply r)) = secret
  /\ stub_status (stub_client declined (serve_reply r)) = 0
  /\ (forall pick,
         option_map pc
           (exec' [Handler pick; Deliver (Some secret); Handler pick;
                   Handler pick] (entry log false))
         = Some (Returned (Some secret)))
  /\ (forall pick,
         option_map pc
           (exec' [Handler pick; Handler pick; Deliver (Some secret);
                   Handler pick] (entry log false))
         = Some (Returned (Some secret))).
Proof.
  intros H Hr Ht HD.
  pose proof (exec_entry_Inv _ _ _ H) as (_ & _ & Hp).
  rewrite Hr in Hp.
  assert (E : r = Some secret).
  { destruct Hp as [(_ & Ht' & _) | (_ & _ & E)]; [congruence|].
    rewrite E in HD. simpl in HD. congruence. }
  subst r. repeat split.
Qed.

End HandlerFacts.

(** ** [run]: the pieces before line 217 stay clear of the event loop *)

Lemma quiet_ret {A} (a : A) : quiet_m (ret a).
Proof. intros st. exists [], []. simpl. rewrite app_nil_r. auto. Qed.

Lemma quiet_return {A} (code : Z) : quiet_m (@return_ A code).
Proof. intros st. exists [], []. simpl. rewrite app_nil_r. auto. Qed.

Lemma quiet_exit {A} (code : Z) : quiet_m (@exit_ A code).
Proof. intros st. exists [], []. simpl. rewrite app_nil_r. auto. Qed.

Lemma quiet_emit (e : Event) : quiet e -> quiet_m (emit e).
Proof. intros He st. exists [e], []. simpl. auto. Qed.

Lemma quiet_defer (e : Event) : quiet e -> quiet_m (defer e).
Proof. intros He st. exists [], [e]. simpl. rewrite app_nil_r. auto. Qed.

Lemma quiet_get_config : quiet_m get_config.
Proof. intros st. exists [], []. simpl. rewrite app_nil_r. auto. Qed.

Lemma quiet_put_config (c : Config) : quiet_m (put_config c).
Proof. intros st. exists [], []. simpl. rewrite app_nil_r. auto. Qed.

Lemma quiet_set_revsets (r : string) : quiet_m (set_revsets r).
Proof. intros st. exists [], []. simpl. rewrite app_nil_r. auto. Qed.

Lemma quiet_bind {A B} (m : M A) (k : A -> M B) :
  quiet_m m -> (forall a, quiet_m (k a)) -> quiet_m (bind m k).
Proof.
  intros Hm Hk st. unfold bind.
  destruct (Hm st) as (es & ds & E1 & E2 & F1 & F2).
  destruct (m st) as [[a | code | code] st1]; simpl in *.
  - destruct (Hk a st1) as (es' & ds' & E1' & E2' & F1' & F2').
    exists (es ++ es'), (ds' ++ ds).
    rewrite E1', E2', E1, E2, !app_assoc.
    repeat split; auto; apply Forall_app; auto.
  - exists es, ds. auto.
  - exists es, ds. auto.
Qed.

Lemma quiet_when (b : bool) (m : M unit) : quiet_m m -> quiet_m (when b m).
Proof. destruct b; simpl; auto using @quiet_ret. Qed.

Lemma quiet_for_each {A} (l : list A) (body : A -> M unit) :
  (forall a, quiet_m (body a)) -> quiet_m (for_each l body).
Proof.
  intros Hb. induction l as [|a l IH]; simpl.
  - apply quiet_ret.
  - apply quiet_bind; auto.
Qed.

Ltac quiet_step :=
  first
    [ apply quiet_ret | apply quiet_return | apply quiet_exit
    | apply quiet_emit; reflexivity | apply quiet_defer; reflexivity
    | apply quiet_get_config | apply quiet_put_config
    | apply quiet_set_revsets
    | apply quiet_when | apply quiet_for_each; intros
    | apply quiet_bind; [|intros]
    | match goal with
      | |- quiet_m (match ?x with _ => _ end) => destruct x
      | |- quiet_m (if ?x then _ else _) => destruct x
      end ].

Ltac quiet_auto := cbv zeta; repeat quiet_step.

Section RunFacts.

Variable TrimSpace : string -> string.

Lemma quiet_getJJRootDir w location :
  quiet_m (getJJRootDir TrimSpace w location).
Proof. unfold getJJRootDir. quiet_auto. Qed.

Lemma quiet_locate w fl : quiet_m (locate TrimSpace w fl).
Proof.
  unfold locate. cbv zeta.
  apply quiet_bind; [quiet_auto|intros].
  apply quiet_bind; [apply quiet_getJJRootDir|intros]. quiet_auto.
Qed.

Lemma quiet_setup_logging w : quiet_m (setup_logging w).
Proof. unfold setup_logging. quiet_auto. Qed.

Lemma quiet_load_config w : quiet_m (load_config w).
Proof. unfold load_config. quiet_auto. Qed.

Lemma quiet_load_lua w : quiet_m (load_lua w).
Proof. unfold load_lua. quiet_auto. Qed.

Lemma quiet_load_themes w : quiet_m (load_themes w).
Proof. unfold load_themes. quiet_auto. Qed.

(** *** Lines 217-234 *)

Lemma shaped_return w (code : Z) : shaped w (return_ code).
Proof.
  intros st. exists [], []. simpl. rewrite app_nil_r.
  repeat split; auto. left. eauto 6.
Qed.

Lemma shaped_exit w (code : Z) : shaped w (exit_ code).
Proof.
  intros st. exists [], []. simpl. rewrite app_nil_r.
  repeat split; auto. left. eauto 6.
Qed.

Lemma shaped_bind {A} w (m : M A) (k : A -> M Z) :
  quiet_m m -> (forall a, shaped w (k a)) -> shaped w (bind m k).
Proof.
  intros Hm Hk st. unfold bind.
  destruct (Hm st) as (es & ds & E1 & E2 & F1 & F2).
  destruct (m st) as [[a | code | code] st1]; simpl in *.
  - destruct (Hk a st1) as (es' & ds' & E1' & E2' & HS).
    exists (es ++ es'), (ds' ++ ds).
    rewrite E1', E2', E1, E2, !app_assoc.
    repeat split; auto.
    destruct HS as [(G1 & G2 & G3) | (es0 & ds0 & G1 & G2 & -> & -> & G3)].
    + left. repeat split; auto; apply Forall_app; auto.
    + right. exists (es ++ es0), (ds0 ++ ds).
      rewrite !app_assoc. repeat split; auto; apply Forall_app; auto.
  - exists es, ds. repeat split; auto. left. eauto 6.
  - exists es, ds. repeat split; auto. left. eauto 6.
Qed.

Lemma shaped_start_ui w : shaped w (start_ui w).
Proof.
  intros st. unfold start_ui, bind, emit, get_config, when; simpl.
  destruct (Ssh_HijackAskpass (config_Current st)) eqn:Hh; simpl;
    [destruct (startListening w) as [e|] eqn:Hs; simpl|];
    destruct (programRun w) as [e'|] eqn:Hr; simpl;
      eexists; eexists;
        (split; [rewrite <- !app_assoc; simpl; reflexivity|]);
        (split; [match goal with
                 | |- ?d = _ ++ ?d => instantiate (1 := []); reflexivity
                 | |- _ :: ?d = _ ++ ?d =>
                   instantiate (1 := [EvServerClose]); reflexivity
                 end|]);
        right; exists [], [];
          unfold tail_events, tail_defers, tail_status;
          rewrite Hh, ?Hs, ?Hr; simpl; repeat split; auto.
Qed.

Lemma shaped_run_primary w : shaped w (run_primary TrimSpace w).
Proof.
  unfold run_primary.
  apply shaped_bind; [quiet_auto | intros _].
  destruct (flagParse w) as [fl | code]; [|apply shaped_exit].
  destruct (help fl);
    [apply shaped_bind; [quiet_auto | intros; apply shaped_return]|].
  destruct (version fl);
    [apply shaped_bind; [quiet_auto | intros; apply shaped_return]|].
  destruct (editConfig fl);
    [apply shaped_bind; [quiet_auto | intros; apply shaped_return]|].
  apply shaped_bind; [apply quiet_locate | intros rootLocation].
  apply shaped_bind; [apply quiet_setup_logging | intros _].
  apply shaped_bind; [quiet_auto | intros _].
  apply shaped_bind; [quiet_auto | intros _].
  apply shaped_bind; [quiet_auto | intros _].
  apply shaped_bind; [apply quiet_load_config | intros _].
  apply shaped_bind; [apply quiet_load_lua | intros _].
  apply shaped_bind; [apply quiet_load_themes | intros theme].
  do 6 (apply shaped_bind; [quiet_auto | intros]).
  apply shaped_bind; [quiet_auto | intros _].
  apply shaped_start_ui.
Qed.

Lemma run_body_unfold w (st : RunState) :
  run_body TrimSpace w st =
  let st2 := {| config_Current := config_Current st;
                DefaultRevset := DefaultRevset st;
                CurrentRevset := CurrentRevset st;
                events := (events st ++ [EvNewUnstartedServer "JJUI"])
                            ++ [EvIsSubprocess];
                deferred := deferred st |} in
  if isSubprocess w then (Return_ 0, st2) else run_primary TrimSpace w st2.
Proof.
  unfold run_body, bind, emit; simpl.
  destruct (isSubprocess w); reflexivity.
Qed.

(** The two leading events, and then the rest. *)
Lemma run_body_spec w (st : RunState) :
  exists es ds,
    events (snd (run_body TrimSpace w st))
    = events st ++ EvNewUnstartedServer "JJUI" :: EvIsSubprocess :: es
    /\ deferred (snd (run_body TrimSpace w st)) = ds ++ deferred st
    /\ Shape w (fst (run_body TrimSpace w st)) es ds
             (config_Current (snd (run_body TrimSpace w st)))
    /\ (isSubprocess w = true ->
        es = [] /\ ds = [] /\ fst (run_body TrimSpace w st) = Return_ 0
        /\ config_Current (snd (run_body TrimSpace w st))
           = config_Current st).
Proof.
  rewrite run_body_unfold. cbv zeta.
  destruct (isSubprocess w) eqn:Hs.
  - exists [], []. simpl. rewrite <- app_assoc. simpl.
    repeat split; auto. left. eauto 6.
  - match goal with
    | |- context [run_primary TrimSpace w ?s] =>
      destruct (shaped_run_primary w s) as (es & ds & E1 & E2 & HS);
        destruct (run_primary TrimSpace w s) as [f st1]
    end.
    simpl in *. exists es, ds. rewrite E1, E2, <- !app_assoc. simpl.
    repeat split; auto; discriminate.
Qed.

(** The trace of every run: clear of lines 217-234, or ending with what
    they produce under the final configuration. *)
Lemma run_shape w :
  exists es,
    ((trace (run TrimSpace w)
      = EvNewUnstartedServer "JJUI" :: EvIsSubprocess :: es
      /\ Forall quiet es)
     \/ (exists es0 ds0,
           Forall quiet es0 /\ Forall quiet ds0
           /\ es = es0
                    ++ tail_events w (config_Current (final (run TrimSpace w)))
                    ++ tail_defers w (config_Current (final (run TrimSpace w)))
                    ++ ds0
           /\ trace (run TrimSpace w)
              = EvNewUnstartedServer "JJUI" :: EvIsSubprocess :: es
           /\ status (run TrimSpace w)
              = tail_status w (config_Current (final (run TrimSpace w))))).
Proof.
  unfold run.
  match goal with
  | |- context [run_body TrimSpace w ?s] =>
    destruct (run_body_spec w s) as (es & ds & E1 & E2 & HS & _);
      destruct (run_body TrimSpace w s) as [f st1]
  end.
  cbn [fst snd events deferred app] in E1, E2, HS.
  rewrite app_nil_r in E2.
  destruct HS as [(G1 & G2 & G3) | (es0 & ds0 & G1 & G2 & -> & -> & ->)].
  - destruct G3 as [[code ->] | [code ->]]; cbn [status trace final].
    + exists (es ++ ds). left. rewrite E1, E2. split; [reflexivity|].
      apply Forall_app; auto.
    + exists es. left. rewrite E1. auto.
  - cbn [status trace final]. eexists. right. exists es0, ds0.
    split; [exact G1|]. split; [exact G2|]. split; [reflexivity|].
    split; [|reflexivity].
    rewrite E1, E2. cbn [app]. rewrite <- !app_assoc. reflexivity.
Qed.

Lemma quiet_not_In (e : Event) (l : list Event) :
  Forall quiet l -> ui_event e = true -> ~ In e l.
Proof.
  intros Hl He Hin. rewrite Forall_forall in Hl.
  specialize (Hl e Hin). unfold quiet in Hl. congruence.
Qed.

(** A stub goes no further than the role detection. *)
Lemma run_stub (w : World) :
  isSubprocess w = true ->
  trace (run TrimSpace w) = [EvNewUnstartedServer "JJUI"; EvIsSubprocess]
  /\ status (run TrimSpace w) = 0
  /\ config_Current (final (run TrimSpace w)) = initialConfig w.
Proof.
  intros Hs. unfold run.
  rewrite run_body_unfold. cbv zeta. rewrite Hs. simpl. auto.
Qed.

(** C7.  Every run starts by making the unstarted server handle and asking
    it for the role of the process, before anything else; for a stub the
    run is over at that point, with status 0: no flag is parsed, no
    configuration, Lua VM or theme is loaded, no program is started, and
    the configuration is as it was. *)
Theorem role_detection_first (w : World) :
  (exists rest,
      trace (run TrimSpace w)
      = EvNewUnstartedServer "JJUI" :: EvIsSubprocess :: rest)
  /\ (isSubprocess w = true ->
      trace (run TrimSpace w) = [EvNewUnstartedServer "JJUI"; EvIsSubprocess]
      /\ status (run TrimSpace w) = 0
      /\ config_Current (final (run TrimSpace w)) = initialConfig w).
Proof.
  split.
  - destruct (run_shape w) as (es & [(E & _) | (? & ? & _ & _ & _ & E & _)]);
      eauto.
  - apply run_stub.
Qed.


Ltac quiet_contra :=
  match goal with
  | Hq : Forall quiet ?l, Hi : In ?e ?l |- _ =>
    exact (quiet_not_In e l Hq eq_refl Hi)
  end.

Ltac quiet_contra_hyp :=
  match goal with
  | Hq : Forall quiet ?l, Hi : In ?e ?l, He : ui_event ?e = true |- _ =>
    exact (quiet_not_In e l Hq He Hi)
  end.

(** C2, as amended.  When the askpass feature is on and [StartListening]
    fails, [run] reports the error on standard error and returns 1: the
    handler is not installed and the event loop is not run. *)
Theorem bind_error_ends_run (w : World) (e : error) :
  startListening w = Some e ->
  In EvStartListening (trace (run TrimSpace w)) ->
  status (run TrimSpace w) = 1
  /\ ~ In EvProgramRun (trace (run TrimSpace w))
  /\ ~ In EvGoServeShowPassword (trace (run TrimSpace w))
  /\ In (EvStderr ("Error: ssh.hijack_askpass: " ++ e ++ nl)%string)
        (trace (run TrimSpace w)).
Proof.
  intros Hs Hin.
  destruct (run_shape w)
    as (es & [(Et & Fq) | (es0 & ds0 & G1 & G2 & Ees & Et & Est)]);
    rewrite Et in *.
  - exfalso. destruct Hin as [H | [H | H]]; try discriminate.
    exact (quiet_not_In EvStartListening _ Fq eq_refl H).
  - rewrite Est. clear Est Et. subst es.
    unfold tail_events, tail_defers, tail_status in *.
    rewrite Hs in *.
    destruct (Ssh_HijackAskpass (config_Current (final (run TrimSpace w)))).
    + split; [reflexivity|].
      repeat split.
      * intros H. simpl in H. rewrite !in_app_iff in H. simpl in H.
        intuition (try discriminate; try quiet_contra).
      * intros H. simpl in H. rewrite !in_app_iff in H. simpl in H.
        intuition (try discriminate; try quiet_contra).
      * simpl. rewrite !in_app_iff. simpl. auto 10.
    + exfalso. simpl in Hin. rewrite !in_app_iff in Hin. simpl in Hin.
      destruct (programRun w); simpl in Hin;
      intuition (try discriminate; try quiet_contra).
Qed.

(** C9.  The askpass relay depends on the configuration alone.  With
    [config.Current.Ssh.HijackAskpass] false the server handle is made but
    [StartListening] is not called and [Serve] is not started with the
    [showPassword] handler; either of the two in the trace means the
    option is true; and with the option true a run that gets to
    [tea.NewProgram] calls [StartListening].  ([run] does not write the
    option after it has tested it, so the final configuration holds the
    value tested.) *)
Theorem askpass_gated_on_config (w : World) :
  (Ssh_HijackAskpass (config_Current (final (run TrimSpace w))) = false ->
   In (EvNewUnstartedServer "JJUI") (trace (run TrimSpace w))
   /\ ~ In EvStartListening (trace (run TrimSpace w))
   /\ ~ In EvServerClose (trace (run TrimSpace w))
   /\ ~ In EvGoServeShowPassword (trace (run TrimSpace w)))
  /\ (In EvStartListening (trace (run TrimSpace w))
      \/ In EvGoServeShowPassword (trace (run TrimSpace w)) ->
      Ssh_HijackAskpass (config_Current (final (run TrimSpace w))) = true)
  /\ (In EvNewProgram (trace (run TrimSpace w)) ->
      Ssh_HijackAskpass (config_Current (final (run TrimSpace w))) = true ->
      In EvStartListening (trace (run TrimSpace w)))
  /\ (In EvGoServeShowPassword (trace (run TrimSpace w)) ->
      In EvStartListening (trace (run TrimSpace w))
      /\ startListening w = None).
Proof.
  destruct (run_shape w)
    as (es & [(Et & Fq) | (es0 & ds0 & G1 & G2 & Ees & Et & Est)]);
    rewrite Et; clear Et.
  - assert (forall e, ui_event e = true ->
                      ~ In e (EvNewUnstartedServer "JJUI"
                                :: EvIsSubprocess :: es)) as Hno.
    { intros e He [H | [H | H]]; try (subst e; discriminate).
      exact (quiet_not_In _ _ Fq He H). }
    repeat split; try (apply Hno; reflexivity); simpl; auto.
    + intros [H | H]; exfalso; revert H; apply Hno; reflexivity.
    + intros H; exfalso; revert H; apply Hno; reflexivity.
    + exfalso; revert H; apply Hno; reflexivity.
    + exfalso; revert H; apply Hno; reflexivity.
  - clear Est. subst es.
    unfold tail_events, tail_defers.
    destruct (Ssh_HijackAskpass (config_Current (final (run TrimSpace w)))).
    + split; [discriminate|]. split; [reflexivity|].
      split.
      * intros _ _. simpl. rewrite !in_app_iff. simpl.
        destruct (startListening w); simpl; auto 10.
      * intros H. simpl in H. rewrite !in_app_iff in H. simpl in H.
        destruct (startListening w) as [e|]; simpl in H.
        -- exfalso.
           intuition (try discriminate; try quiet_contra).
        -- split; [|reflexivity].
           simpl. rewrite !in_app_iff. simpl. auto 10.
    + assert (forall e, ui_event e = true -> e <> EvUINew ->
                        e <> EvNewProgram -> e <> EvProgramRun ->
                        ~ In e (EvNewUnstartedServer "JJUI"
                                  :: EvIsSubprocess
                                  :: es0 ++ ([EvUINew; EvNewProgram]
                                               ++ [EvProgramRun]
                                               ++ match programRun w with
                                                  | Some e0 =>
                                                    [EvStdout
                                                       ("Error running program: "
                                                          ++ e0 ++ nl)%string]
                                                  | None => []
                                                  end)
                                  ++ [] ++ ds0)) as Hno.
      { intros e He N1 N2 N3 H. simpl in H. rewrite !in_app_iff in H.
        simpl in H.
        destruct (programRun w); simpl in H;
        intuition (try (subst e; discriminate); try congruence;
                   try quiet_contra_hyp). }
      split.
      * intros _. split; [simpl; auto|].
        repeat split; apply Hno; (reflexivity || discriminate).
      * split; [|split; [discriminate|]].
        -- intros [H | H]; exfalso; revert H; apply Hno;
             (reflexivity || discriminate).
        -- intros H; exfalso; revert H; apply Hno;
             (reflexivity || discriminate).
Qed.

End RunFacts.

(** ** The statements at work on sample inputs *)

Lemma adjustPrompt_identity_witness :
  Exists (fun r => unicode.IsSpace r = false)
         (utf8.runes "Enter PIN for 'ssh': ")
  /\ adjustPrompt "Enter PIN for 'ssh': " = "Enter PIN for 'ssh': ".
Proof.
  assert (H : Exists (fun r => unicode.IsSpace r = false)
                     (utf8.runes "Enter PIN for 'ssh': ")).
  { vm_compute. apply Exists_cons_hd. reflexivity. }
  split; [exact H | exact (adjustPrompt_identity "Enter PIN for 'ssh': " H)].
Defined.

Lemma showPassword_prompt_label_witness :
  exists m rest,
    [showMsg "   " 0%nat] = [] ++ m :: rest
    /\ Password m = Some 0%nat
    /\ Prompt m = "ssh-askpass: ".
Proof.
  destruct (showPassword_prompt_label "ssh" "   " 0%nat [] false
              [Handler CaseDone]
              {| pc := AtSelect; ui := [showMsg "   " 0%nat]; password := [];
                 done := false; taken := [] |})
    as (m & rest & E & Hch & Hspace & _).
  - reflexivity.
  - discriminate.
  - exists m, rest. split; [exact E|]. split; [exact Hch|].
    apply Hspace. vm_compute. repeat constructor.
Defined.

(** The claim C4 makes fails on [racySchedule]: [done] fires first, the
    secret is sent after it, and the handler returns the secret without
    posting the hide message. *)
Lemma later_secret_can_win :
  exists st,
    exec post "ssh" "Password: " 0%nat racySchedule (entry [] false) = Some st
    /\ signals racySchedule = [CaseDone; CasePassword]
    /\ pc st = Returned (Some sampleSecret)
    /\ taken st = [CasePassword]
    /\ ui st = [showMsg "Password: " 0%nat].
Proof. eexists. repeat split. Qed.

Lemma select_case_exclusive_witness :
  exists st',
    step post "ssh" "Password: " 0%nat FireDone
         {| pc := Parked; ui := [showMsg "Password: " 0%nat];
            password := []; done := false; taken := [] |} = Some st'
    /\ taken st' = [CaseDone] /\ result st' = Some None.
Proof.
  destruct (select_case_exclusive "ssh" "Password: " 0%nat [] false
              [Handler CaseDone; Handler CaseDone]
              {| pc := Parked; ui := [showMsg "Password: " 0%nat];
                 password := []; done := false; taken := [] |} eq_refl)
    as (_ & _ & HP & _).
  exact (proj1 (HP eq_refl)).
Defined.

Lemma cancel_posts_hide_and_returns_nil_witness :
  pc (run_handler post 3 "ssh" "Password: " 0%nat CasePassword
        {| pc := AtSelect; ui := [showMsg "Password: " 0%nat];
           password := []; done := true; taken := [] |}) = Returned None
  /\ ui (run_handler post 3 "ssh" "Password: " 0%nat CasePassword
           {| pc := AtSelect; ui := [showMsg "Password: " 0%nat];
              password := []; done := true; taken := [] |})
     = [] ++ [showMsg "Password: " 0%nat; {| Prompt := ""; Password := None |}]
  /\ taken (run_handler post 3 "ssh" "Password: " 0%nat CasePassword
              {| pc := AtSelect; ui := [showMsg "Password: " 0%nat];
                 password := []; done := true; taken := [] |}) = [CaseDone].
Proof.
  exact (proj1 (cancel_posts_hide_and_returns_nil "ssh" "Password: " 0%nat []
                  false [Handler CaseDone; FireDone]
                  {| pc := AtSelect; ui := [showMsg "Password: " 0%nat];
                     password := []; done := true; taken := [] |}
                  CasePassword eq_refl eq_refl eq_refl)).
Defined.

Lemma completion_returns_bytes_silently_witness :
  pc (run_handler post 3 "ssh" "Password: " 0%nat CaseDone
        {| pc := AtSelect; ui := [showMsg "Password: " 0%nat];
           password := [Some sampleSecret]; done := false; taken := [] |})
  = Returned (Some sampleSecret)
  /\ ui (run_handler post 3 "ssh" "Password: " 0%nat CaseDone
           {| pc := AtSelect; ui := [showMsg "Password: " 0%nat];
              password := [Some sampleSecret]; done := false; taken := [] |})
     = [] ++ [showMsg "Password: " 0%nat]
  /\ taken (run_handler post 3 "ssh" "Password: " 0%nat CaseDone
              {| pc := AtSelect; ui := [showMsg "Password: " 0%nat];
                 password := [Some sampleSecret]; done := false;
                 taken := [] |}) = [CasePassword].
Proof.
  exact (proj1 (completion_returns_bytes_silently "ssh" "Password: " 0%nat []
                  [Handler CaseDone; Deliver (Some sampleSecret)]
                  {| pc := AtSelect; ui := [showMsg "Password: " 0%nat];
                     password := [Some sampleSecret]; done := false;
                     taken := [] |}
                  CaseDone (Some sampleSecret) [] eq_refl eq_refl eq_refl)).
Defined.

Lemma secret_returned_unmodified_witness :
  Some sampleSecret = Some sampleSecret
  /\ stub_stdout (stub_client 1 (serve_reply (Some sampleSecret)))
     = sampleSecret
  /\ stub_status (stub_client 1 (serve_reply (Some sampleSecret))) = 0
  /\ (forall pick,
         option_map pc
           (exec post "ssh" "Password: " 0%nat
                 [Handler pick; Deliver (Some sampleSecret); Handler pick;
                  Handler pick] (entry [] false))
         = Some (Returned (Some sampleSecret)))
  /\ (forall pick,
         option_map pc
           (exec post "ssh" "Password: " 0%nat
                 [Handler pick; Handler pick; Deliver (Some sampleSecret);
                  Handler pick] (entry [] false))
         = Some (Returned (Some sampleSecret))).
Proof.
  apply (secret_returned_unmodified "ssh" "Password: " 0%nat [] sampleSecret
           1 false
           [Handler CaseDone; Handler CaseDone; Deliver (Some sampleSecret);
            Handler CaseDone]
           {| pc := Returned (Some sampleSecret);
              ui := [showMsg "Password: " 0%nat];
              password := []; done := false; taken := [CasePassword] |}
           (Some sampleSecret)); reflexivity.
Defined.

(** The claim C5 makes fails on [cancelledThenAnswered]: [done] is ready
    before any secret is sent, and the handler returns the secret and posts
    no hide message. *)
Lemma cancelled_first_yet_secret_returned :
  exists st,
    exec post "ssh" "Password: " 0%nat cancelledThenAnswered (entry [] false)
    = Some st
    /\ signals cancelledThenAnswered = [CaseDone; CasePassword]
    /\ pc st = Returned (Some sampleSecret)
    /\ pc st <> Returned None
    /\ ui st = [showMsg "Password: " 0%nat]
    /\ ~ In TogglePasswordMsg_zero (ui st).
Proof.
  eexists. split; [reflexivity|]. split; [reflexivity|].
  split; [reflexivity|]. split; [discriminate|]. split; [reflexivity|].
  simpl. intros [E | []]. discriminate.
Qed.

(** The claim C6 makes fails on [answeredThenCancelled]: the secret is sent
    before [done] becomes ready, and the handler posts the hide message and
    returns [nil]. *)
Lemma answered_first_yet_nil_returned :
  exists st,
    exec post "ssh" "Password: " 0%nat answeredThenCancelled (entry [] false)
    = Some st
    /\ signals answeredThenCancelled = [CasePassword; CaseDone]
    /\ deliveries answeredThenCancelled = [Some sampleSecret]
    /\ pc st = Returned None
    /\ pc st <> Returned (Some sampleSecret)
    /\ ui st = [showMsg "Password: " 0%nat; TogglePasswordMsg_zero].
Proof.
  eexists. split; [reflexivity|]. split; [reflexivity|].
  split; [reflexivity|]. split; [reflexivity|]. split; [discriminate|].
  reflexivity.
Qed.


(** The claim C2 makes fails where the feature is on and the address is
    taken: [StartListening] is called and fails, the event loop is not run
    and the status is 1. *)
Lemma bind_error_stops_ui :
  startListening (primaryWorld true (Some "address already in use"))
  = Some "address already in use"
  /\ In EvStartListening
        (trace (run noTrim (primaryWorld true (Some "address already in use"))))
  /\ ~ In EvProgramRun
        (trace (run noTrim (primaryWorld true (Some "address already in use"))))
  /\ status (run noTrim (primaryWorld true (Some "address already in use")))
     = 1.
Proof.
  split; [reflexivity|]. split; [|split; [|reflexivity]].
  - vm_compute. tauto.
  - vm_compute. intuition discriminate.
Qed.

Lemma bind_error_ends_run_witness :
  status (run noTrim (primaryWorld true (Some "address already in use"))) = 1
  /\ ~ In EvProgramRun
        (trace (run noTrim (primaryWorld true (Some "address already in use"))))
  /\ ~ In EvGoServeShowPassword
        (trace (run noTrim (primaryWorld true (Some "address already in use"))))
  /\ In (EvStderr ("Error: ssh.hijack_askpass: " ++ "address already in use"
                     ++ nl)%string)
        (trace (run noTrim (primaryWorld true (Some "address already in use")))).
Proof.
  apply (bind_error_ends_run noTrim
           (primaryWorld true (Some "address already in use"))
           "address already in use").
  - reflexivity.
  - vm_compute. tauto.
Defined.

Lemma role_detection_first_witness :
  trace (run noTrim (stubWorld Declined))
  = [EvNewUnstartedServer "JJUI"; EvIsSubprocess]
  /\ status (run noTrim (stubWorld Declined)) = 0
  /\ config_Current (final (run noTrim (stubWorld Declined)))
     = initialConfig (stubWorld Declined).
Proof.
  exact (proj2 (role_detection_first noTrim (stubWorld Declined)) eq_refl).
Defined.

Lemma askpass_gated_on_config_witness :
  In (EvNewUnstartedServer "JJUI") (trace (run noTrim (primaryWorld false None)))
  /\ ~ In EvStartListening (trace (run noTrim (primaryWorld false None)))
  /\ ~ In EvServerClose (trace (run noTrim (primaryWorld false None)))
  /\ ~ In EvGoServeShowPassword (trace (run noTrim (primaryWorld false None))).
Proof.
  exact (proj1 (askpass_gated_on_config noTrim (primaryWorld false None))
               eq_refl).
Defined.

(** * Further properties *)

(** ** More on [run]: what its pieces produce and how they end *)

Lemma clear_nil (b : Event -> bool) : clear b [].
Proof. constructor. Qed.

Lemma clear_app (b : Event -> bool) (l1 l2 : list Event) :
  clear b l1 -> clear b l2 -> clear b (l1 ++ l2).
Proof. apply Forall_app_intro || (intros; apply Forall_app; auto). Qed.

Lemma clear_not_In (b : Event -> bool) (e : Event) (l : list Event) :
  clear b l -> b e = true -> ~ In e l.
Proof.
  intros Hl He Hin. unfold clear in Hl. rewrite Forall_forall in Hl.
  specialize (Hl e Hin). congruence.
Qed.

Section Confined.

Variables be bd : Event -> bool.

Lemma confined_ret {A} (a : A) : confined be bd (ret a).
Proof.
  intros st. exists [], []. simpl. rewrite app_nil_r.
  repeat split; constructor.
Qed.

Lemma confined_return {A} (code : Z) : confined be bd (@return_ A code).
Proof.
  intros st. exists [], []. simpl. rewrite app_nil_r.
  repeat split; constructor.
Qed.

Lemma confined_exit {A} (code : Z) : confined be bd (@exit_ A code).
Proof.
  intros st. exists [], []. simpl. rewrite app_nil_r.
  repeat split; constructor.
Qed.

Lemma confined_emit (e : Event) : be e = false -> confined be bd (emit e).
Proof.
  intros He st. exists [e], []. simpl.
  repeat split; repeat constructor; auto.
Qed.

Lemma confined_defer (e : Event) : bd e = false -> confined be bd (defer e).
Proof.
  intros He st. exists [], [e]. simpl. rewrite app_nil_r.
  repeat split; repeat constructor; auto.
Qed.

Lemma confined_get_config : confined be bd get_config.
Proof.
  intros st. exists [], []. simpl. rewrite app_nil_r.
  repeat split; constructor.
Qed.

Lemma confined_put_config (c : Config) : confined be bd (put_config c).
Proof.
  intros st. exists [], []. simpl. rewrite app_nil_r.
  repeat split; constructor.
Qed.

Lemma confined_set_revsets (r : string) : confined be bd (set_revsets r).
Proof.
  intros st. exists [], []. simpl. rewrite app_nil_r.
  repeat split; constructor.
Qed.

Lemma confined_bind {A B} (m : M A) (k : A -> M B) :
  confined be bd m -> (forall a, confined be bd (k a)) ->
  confined be bd (bind m k).
Proof.
  intros Hm Hk st. unfold bind.
  destruct (Hm st) as (es & ds & E1 & E2 & F1 & F2).
  destruct (m st) as [[a | code | code] st1]; simpl in *.
  - destruct (Hk a st1) as (es' & ds' & E1' & E2' & F1' & F2').
    exists (es ++ es'), (ds' ++ ds).
    rewrite E1', E2', E1, E2, !app_assoc.
    repeat split; auto; apply clear_app; auto.
  - exists es, ds. auto.
  - exists es, ds. auto.
Qed.

Lemma confined_when (b : bool) (m : M unit) :
  confined be bd m -> confined be bd (when b m).
Proof. destruct b; simpl; auto using @confined_ret. Qed.

Lemma confined_for_each {A} (l : list A) (body : A -> M unit) :
  (forall a, confined be bd (body a)) -> confined be bd (for_each l body).
Proof.
  intros Hb. induction l as [|a l IH]; simpl.
  - apply confined_ret.
  - apply confined_bind; auto.
Qed.

End Confined.

Ltac confined_step :=
  first
    [ apply confined_ret | apply confined_return | apply confined_exit
    | apply confined_emit; reflexivity | apply confined_defer; reflexivity
    | apply confined_get_config | apply confined_put_config
    | apply confined_set_revsets
    | apply confined_when | apply confined_for_each; intros
    | apply confined_bind; [|intros]
    | match goal with
      | |- confined _ _ (match ?x with _ => _ end) => destruct x
      | |- confined _ _ (if ?x then _ else _) => destruct x
      end ].

Ltac confined_auto :=
  unfold run_primary, start_ui, locate, getJJRootDir, setup_logging,
    load_config, load_lua, load_themes;
  cbv zeta; repeat confined_step.

Section Flows.

Context {okR okE : Z -> Prop}.

Lemma flows_ret {A} (okC : A -> Prop) (a : A) :
  okC a -> flows okC okR okE (ret a).
Proof. intros H st. exact H. Qed.

Lemma flows_return {A} (okC : A -> Prop) (code : Z) :
  okR code -> flows okC okR okE (@return_ A code).
Proof. intros H st. exact H. Qed.

Lemma flows_exit {A} (okC : A -> Prop) (code : Z) :
  okE code -> flows okC okR okE (@exit_ A code).
Proof. intros H st. exact H. Qed.

Lemma flows_emit (e : Event) : flows anything okR okE (emit e).
Proof. intros st. exact I. Qed.

Lemma flows_defer (e : Event) : flows anything okR okE (defer e).
Proof. intros st. exact I. Qed.

Lemma flows_get_config : flows anything okR okE get_config.
Proof. intros st. exact I. Qed.

Lemma flows_put_config (c : Config) : flows anything okR okE (put_config c).
Proof. intros st. exact I. Qed.

Lemma flows_set_revsets (r : string) : flows anything okR okE (set_revsets r).
Proof. intros st. exact I. Qed.

Lemma flows_bind {A B} (okC : B -> Prop) (m : M A) (k : A -> M B) :
  flows anything okR okE m -> (forall a, flows okC okR okE (k a)) ->
  flows okC okR okE (bind m k).
Proof.
  intros Hm Hk st. unfold bind. specialize (Hm st).
  destruct (m st) as [[a | code | code] st1]; simpl in *; auto.
  apply Hk.
Qed.

Lemma flows_weaken {A} (okC : A -> Prop) (m : M A) :
  flows okC okR okE m -> flows anything okR okE m.
Proof.
  intros H st. specialize (H st). destruct (fst (m st)); auto. exact I.
Qed.

Lemma flows_when (b : bool) (m : M unit) :
  flows anything okR okE m -> flows anything okR okE (when b m).
Proof. destruct b; simpl; auto. intros _ st. exact I. Qed.

Lemma flows_for_each {A} (l : list A) (body : A -> M unit) :
  (forall a, flows anything okR okE (body a)) ->
  flows anything okR okE (for_each l body).
Proof.
  intros Hb. induction l as [|a l IH]; simpl.
  - intros st. exact I.
  - apply flows_bind; auto.
Qed.

End Flows.

Ltac flows_step :=
  first
    [ apply flows_emit | apply flows_defer
    | apply flows_get_config | apply flows_put_config
    | apply flows_set_revsets
    | apply flows_when | apply flows_for_each; intros
    | apply flows_bind; [|intros]
    | match goal with
      | |- flows _ _ _ (match ?x with _ => _ end) => destruct x
      | |- flows _ _ _ (if ?x then _ else _) => destruct x
      end
    | apply flows_ret; solve [exact I | auto]
    | apply flows_return; solve [exact I | auto | reflexivity]
    | apply flows_exit; solve [exact I | auto | reflexivity] ].

Ltac flows_auto :=
  unfold run_primary, start_ui, locate, getJJRootDir, setup_logging,
    load_config, load_lua, load_themes;
  cbv zeta; repeat flows_step.

(** *** Pieces that end a run, after a prefix that is clear *)

Section EndsWith.

Variables be bd : Event -> bool.
Variable Q : RunState -> Flow Z -> RunState -> Prop.

Lemma ends_with_return (code : Z) : ends_with be bd Q (return_ code).
Proof.
  intros st. left. exists [], []. simpl. rewrite app_nil_r.
  split; [reflexivity|]. split; [reflexivity|].
  split; [constructor|]. split; [constructor|]. left. eauto.
Qed.

Lemma ends_with_exit (code : Z) : ends_with be bd Q (exit_ code).
Proof.
  intros st. left. exists [], []. simpl. rewrite app_nil_r.
  split; [reflexivity|]. split; [reflexivity|].
  split; [constructor|]. split; [constructor|]. right. eauto.
Qed.

Lemma ends_with_base (m : M Z) :
  (forall st, Q st (fst (m st)) (snd (m st))) -> ends_with be bd Q m.
Proof.
  intros H st. right. exists st, [], []. rewrite app_nil_r. simpl.
  split; [reflexivity|]. split; [reflexivity|].
  split; [constructor|]. split; [constructor|]. apply H.
Qed.

Lemma ends_with_bind_if (P : Prop) {A} (m : M A) (k : A -> M Z) :
  confined be bd m -> continues_only_if P m ->
  (forall a, P -> ends_with be bd Q (k a)) ->
  ends_with be bd Q (bind m k).
Proof.
  intros Hm HP Hk st. unfold bind.
  destruct (Hm st) as (es & ds & E1 & E2 & F1 & F2).
  specialize (HP st).
  destruct (m st) as [[a | code | code] st1]; simpl in *.
  - destruct (Hk a (HP a eq_refl) st1)
      as [(es' & ds' & E1' & E2' & F1' & F2' & HE)
         | (mid & es' & ds' & E1' & E2' & F1' & F2' & HQ)].
    + left. exists (es ++ es'), (ds' ++ ds).
      rewrite E1', E2', E1, E2, !app_assoc.
      repeat split; auto; apply clear_app; auto.
    + right. exists mid, (es ++ es'), (ds' ++ ds).
      rewrite E1', E2', E1, E2, !app_assoc.
      repeat split; auto; apply clear_app; auto.
  - left. exists es, ds. repeat split; auto. left. eauto.
  - left. exists es, ds. repeat split; auto. right. eauto.
Qed.

Lemma ends_with_bind {A} (m : M A) (k : A -> M Z) :
  confined be bd m -> (forall a, ends_with be bd Q (k a)) ->
  ends_with be bd Q (bind m k).
Proof.
  intros Hm Hk. apply (ends_with_bind_if True); auto.
  intros st a _. exact I.
Qed.

End EndsWith.

(** *** Exits on the spot and pending defers *)

Lemma exit_clean_of_flows {A} (m : M A) :
  flows anything anything nothing m -> exit_clean m.
Proof.
  intros H st code _ E. specialize (H st). rewrite E in H. destruct H.
Qed.

Lemma exit_clean_exit {A} (code : Z) : exit_clean (@exit_ A code).
Proof. intros st c Hd _. exact Hd. Qed.

Lemma exit_clean_bind_late {A B} (m : M A) (k : A -> M B) :
  confined no_event any_event m -> (forall a, exit_clean (k a)) ->
  exit_clean (bind m k).
Proof.
  intros Hm Hk st code Hd. unfold bind.
  destruct (Hm st) as (es & ds & _ & E2 & _ & F2).
  assert (ds = []) as ->.
  { destruct ds as [|e ds]; [reflexivity|]. inversion F2; discriminate. }
  rewrite Hd in E2. simpl in E2.
  specialize (Hk) as Hk'.
  destruct (m st) as [[a | c | c] st1]; simpl in *.
  - apply Hk'. exact E2.
  - discriminate.
  - intros _. exact E2.
Qed.

Lemma exit_clean_bind_early {A B} (m : M A) (k : A -> M B) :
  exit_clean m -> (forall a, flows anything anything nothing (k a)) ->
  exit_clean (bind m k).
Proof.
  intros Hm Hk st code Hd. unfold bind. specialize (Hm st).
  destruct (m st) as [[a | c | c] st1]; simpl in *.
  - intros E. specialize (Hk a st1). rewrite E in Hk. destruct Hk.
  - discriminate.
  - intros E. injection E as ->. apply (Hm code); auto.
Qed.

(** *** Errors come with a message *)

Section Loud.

Variable seen : bool.

Lemma loud_ret {A} (a : A) : loud seen (ret a).
Proof. intros st. exists []. simpl. rewrite app_nil_r. auto. Qed.

Lemma loud_emit (e : Event) : loud seen (emit e).
Proof. intros st. exists [e]. simpl. auto. Qed.

Lemma loud_defer (e : Event) : loud seen (defer e).
Proof. intros st. exists []. simpl. rewrite app_nil_r. auto. Qed.

Lemma loud_get_config : loud seen get_config.
Proof. intros st. exists []. simpl. rewrite app_nil_r. auto. Qed.

Lemma loud_put_config (c : Config) : loud seen (put_config c).
Proof. intros st. exists []. simpl. rewrite app_nil_r. auto. Qed.

Lemma loud_set_revsets (r : string) : loud seen (set_revsets r).
Proof. intros st. exists []. simpl. rewrite app_nil_r. auto. Qed.

Lemma loud_return_zero {A} : loud seen (@return_ A 0).
Proof. intros st. exists []. simpl. rewrite app_nil_r. auto. Qed.

Lemma loud_bind {A B} (m : M A) (k : A -> M B) :
  loud seen m -> (forall a, loud seen (k a)) -> loud seen (bind m k).
Proof.
  intros Hm Hk st. unfold bind.
  destruct (Hm st) as (es & E1 & H1).
  destruct (m st) as [[a | code | code] st1]; simpl in *.
  - destruct (Hk a st1) as (es' & E1' & H1').
    exists (es ++ es'). rewrite E1', E1, app_assoc. split; [reflexivity|].
    destruct (fst (k a st1)); auto;
      (destruct H1' as [H | [H | H]]; auto;
       right; right; apply Exists_app; auto).
  - exists es. auto.
  - exists es. auto.
Qed.

Lemma loud_when (b : bool) (m : M unit) : loud seen m -> loud seen (when b m).
Proof. destruct b; simpl; auto using @loud_ret. Qed.

Lemma loud_for_each {A} (l : list A) (body : A -> M unit) :
  (forall a, loud seen (body a)) -> loud seen (for_each l body).
Proof.
  intros Hb. induction l as [|a l IH]; simpl.
  - apply loud_ret.
  - apply loud_bind; auto.
Qed.

End Loud.

Lemma loud_seen_return {A} (code : Z) : loud true (@return_ A code).
Proof. intros st. exists []. simpl. rewrite app_nil_r. auto. Qed.

Lemma loud_seen_exit {A} (code : Z) : loud true (@exit_ A code).
Proof. intros st. exists []. simpl. rewrite app_nil_r. auto. Qed.

Lemma loud_after_message (seen : bool) {B} (e : Event) (k : unit -> M B) :
  is_message e = true -> (forall a, loud true (k a)) ->
  loud seen (bind (emit e) k).
Proof.
  intros He Hk st. unfold bind, emit. simpl.
  match goal with
  | |- context [k tt ?s] => destruct (Hk tt s) as (es' & E1' & H1')
  end.
  simpl in E1'. exists (e :: es').
  rewrite E1', <- app_assoc. split; [reflexivity|].
  destruct (fst (k tt _)); auto; right; right; apply Exists_cons_hd; exact He.
Qed.

Ltac loud_step :=
  first
    [ apply loud_ret | apply loud_return_zero
    | apply loud_seen_return | apply loud_seen_exit
    | apply loud_after_message; [reflexivity | intros]
    | apply loud_emit | apply loud_defer
    | apply loud_get_config | apply loud_put_config
    | apply loud_set_revsets
    | apply loud_when | apply loud_for_each; intros
    | apply loud_bind; [|intros]
    | match goal with
      | |- loud _ (match ?x with _ => _ end) => destruct x
      | |- loud _ (if ?x then _ else _) => destruct x
      end ].

Ltac loud_auto :=
  unfold run_primary, start_ui, locate, getJJRootDir, setup_logging,
    load_config, load_lua, load_themes;
  cbv zeta; repeat loud_step.

(** *** One step of a piece of [run] *)

Lemma bind_emit {B} (e : Event) (k : unit -> M B) (st : RunState) :
  bind (emit e) k st
  = k tt {| config_Current := config_Current st;
            DefaultRevset := DefaultRevset st;
            CurrentRevset := CurrentRevset st;
            events := events st ++ [e];
            deferred := deferred st |}.
Proof. reflexivity. Qed.

Lemma bind_defer {B} (e : Event) (k : unit -> M B) (st : RunState) :
  bind (defer e) k st
  = k tt {| config_Current := config_Current st;
            DefaultRevset := DefaultRevset st;
            CurrentRevset := CurrentRevset st;
            events := events st;
            deferred := e :: deferred st |}.
Proof. reflexivity. Qed.

Lemma bind_assoc {A B C} (m : M A) (f : A -> M B) (g : B -> M C)
      (st : RunState) :
  bind (bind m f) g st = bind m (fun a => bind (f a) g) st.
Proof. unfold bind. destruct (m st) as [[a | c | c] st1]; reflexivity. Qed.

Lemma bind_ret {A B} (a : A) (k : A -> M B) (st : RunState) :
  bind (ret a) k st = k a st.
Proof. reflexivity. Qed.

Lemma bind_get_config {B} (k : Config -> M B) (st : RunState) :
  bind get_config k st = k (config_Current st) st.
Proof. reflexivity. Qed.

Lemma bind_put_config {B} (c : Config) (k : unit -> M B) (st : RunState) :
  bind (put_config c) k st
  = k tt {| config_Current := c;
            DefaultRevset := DefaultRevset st;
            CurrentRevset := CurrentRevset st;
            events := events st;
            deferred := deferred st |}.
Proof. reflexivity. Qed.

Lemma bind_set_revsets {B} (r : string) (k : unit -> M B) (st : RunState) :
  bind (set_revsets r) k st
  = k tt {| config_Current := config_Current st;
            DefaultRevset := r;
            CurrentRevset := r;
            events := events st;
            deferred := deferred st |}.
Proof. reflexivity. Qed.

Lemma bind_return {A B} (code : Z) (k : A -> M B) (st : RunState) :
  bind (return_ code) k st = (Return_ code, st).
Proof. reflexivity. Qed.

Ltac run_steps :=
  repeat (rewrite bind_assoc || rewrite bind_emit || rewrite bind_defer
          || rewrite bind_ret || rewrite bind_return).


Ltac run_all :=
  repeat (progress
            (run_steps;
             rewrite ?bind_get_config, ?bind_put_config, ?bind_set_revsets;
             cbn [config_Current DefaultRevset CurrentRevset events deferred
                  fst snd])).

(** ** More on the prompt label *)

Lemma isCont_not_ascii (b : Z) : utf8.isCont b = true -> utf8.RuneSelf <= b.
Proof.
  unfold utf8.isCont, utf8.locb, utf8.RuneSelf.
  intros H. apply andb_prop in H. destruct H as [H _].
  apply Z.leb_le in H. exact H.
Qed.

(** A byte below [RuneSelf] is never swallowed by the decoding of its
    neighbours: it comes out as a rune of its own. *)
Lemma runes_ascii_In_bounded (n : nat) : forall (s : string) (c : ascii),
  (String.length s <= n)%nat ->
  In c (list_ascii_of_string s) -> byteZ c < utf8.RuneSelf ->
  In (byteZ c) (utf8.runes s).
Proof.
  induction n as [|n IH]; intros s c Hlen Hin Hc.
  - destruct s; simpl in *; [contradiction | lia].
  - destruct s as [|c0 s1]; [contradiction|].
    simpl in Hlen. simpl in Hin.
    assert (IH1 : In c (list_ascii_of_string s1) -> In (byteZ c) (utf8.runes s1)).
    { intros H. apply IH; auto. lia. }
    cbn [utf8.runes]. cbv zeta.
    destruct (Z.ltb_spec (byteZ c0) utf8.RuneSelf) as [Hb0 | Hb0].
    + destruct Hin as [-> | Hin]; [left; reflexivity | right; auto].
    + assert (Hin1 : In c (list_ascii_of_string s1)).
      { destruct Hin as [-> | Hin]; [lia | exact Hin]. }
      assert (Hbad : In (byteZ c) (utf8.RuneError :: utf8.runes s1))
        by (right; auto).
      repeat match goal with
             | |- In _ (if ?b then _ else _) => destruct b eqn:?
             | |- In _ (match ?s with _ => _ end) => destruct s
             end; try exact Hbad;
        repeat match goal with
               | H : _ && _ = true |- _ =>
                 apply andb_prop in H; destruct H
               | H : utf8.isCont _ = true |- _ =>
                 apply isCont_not_ascii in H
               end;
        simpl in Hin1, Hlen;
        right; apply IH; auto; try lia;
        repeat match goal with
               | H : _ \/ _ |- _ => destruct H as [-> | H]; [lia|]
               end; assumption.
Qed.

Lemma runes_ascii_In (s : string) (c : ascii) :
  In c (list_ascii_of_string s) -> byteZ c < utf8.RuneSelf ->
  In (byteZ c) (utf8.runes s).
Proof. apply (runes_ascii_In_bounded (String.length s)). lia. Qed.

Lemma space_or_not (rs : list rune) :
  Exists (fun r => unicode.IsSpace r = false) rs
  \/ Forall (fun r => unicode.IsSpace r = true) rs.
Proof.
  induction rs as [|r rs [IH | IH]].
  - right. constructor.
  - left. now apply Exists_cons_tl.
  - destruct (unicode.IsSpace r) eqn:E.
    + right. now constructor.
    + left. now apply Exists_cons_hd.
Qed.

Lemma adjustPrompt_visible (s : string) :
  Exists (fun r => unicode.IsSpace r = false) (utf8.runes (adjustPrompt s)).
Proof.
  unfold adjustPrompt.
  destruct (space_or_not (utf8.runes s)) as [H | H].
  - rewrite (adjustPrompt_loop_nonspace _ s H). exact H.
  - rewrite (adjustPrompt_loop_space _ s H).
    vm_compute. apply Exists_cons_hd. reflexivity.
Qed.

(** X1.  Whatever the prompt, the label [adjustPrompt] returns has a rune
    that is not white space: it is never empty or blank. *)
Theorem adjustPrompt_never_blank (s : string) :
  Exists (fun r => unicode.IsSpace r = false) (utf8.runes (adjustPrompt s)).
Proof. exact (adjustPrompt_visible s). Qed.

(** X2.  Normalising twice is normalising once. *)
Theorem adjustPrompt_idempotent (s : string) :
  adjustPrompt (adjustPrompt s) = adjustPrompt s.
Proof.
  unfold adjustPrompt at 1.
  apply adjustPrompt_loop_nonspace. apply adjustPrompt_visible.
Qed.

(** X3.  A prompt with a byte below 0x80 that is not one of the six ASCII
    space characters is left as it is, whatever its other bytes are, well
    formed UTF-8 or not. *)
Theorem adjustPrompt_ascii_visible (s : string) (c : ascii) :
  In c (list_ascii_of_string s) ->
  byteZ c < 0x80 ->
  unicode.IsSpace (byteZ c) = false ->
  adjustPrompt s = s.
Proof.
  intros Hin Hc Hs. unfold adjustPrompt.
  apply adjustPrompt_loop_nonspace.
  apply Exists_exists. exists (byteZ c). split; [|exact Hs].
  now apply runes_ascii_In.
Qed.

(** ** More on the prompt handler *)

Section HandlerMore.

Variables (name prompt : string) (ch : chan_id).
Variable log : list TogglePasswordMsg.

Local Abbreviation step' := (step post name prompt ch).
Local Abbreviation exec' := (exec post name prompt ch).
Local Abbreviation finish' := (run_handler post 3 name prompt ch).

(** X4.  Whatever the schedule, the handler posts the show message first
    and at most one message after it, the hide message, and the hide
    message is there exactly when the handler has returned through
    [case <-done]. *)
Theorem handler_posts_show_then_hide (d : bool) (sched : list Action) st :
  exec' sched (entry log d) = Some st ->
  (ui st = log /\ pc st = AtEntry)
  \/ (ui st = log ++ [showMsg prompt ch]
      /\ pc st <> AtEntry
      /\ (forall r, pc st = Returned r -> taken st = [CasePassword]))
  \/ (ui st = log ++ [showMsg prompt ch; TogglePasswordMsg_zero]
      /\ pc st = Returned None /\ taken st = [CaseDone]).
Proof.
  intros H. destruct (exec_entry_Inv _ _ _ _ _ _ _ H) as (_ & _ & Hp).
  destruct (pc st) as [| | | |pw|r] eqn:E.
  - left. tauto.
  - right; left. repeat split; try discriminate; tauto.
  - right; left. repeat split; try discriminate; tauto.
  - right; left. repeat split; try discriminate; tauto.
  - right; left. repeat split; try discriminate; tauto.
  - destruct Hp as [(Hu & Ht & -> & _) | (Hu & Ht & _)].
    + right; right. auto.
    + right; left. repeat split; try discriminate; auto.
Qed.

(** X5.  Without a signal the handler does not return: as long as [done]
    is not ready and nothing was sent on the result channel it has no
    result, and left to run it parks in the [select], where it cannot
    step. *)
Theorem handler_waits_for_a_signal (sched : list Action) st (pick : Case) :
  exec' sched (entry log false) = Some st ->
  signals sched = [] ->
  result st = None
  /\ pc (finish' pick st) = Parked
  /\ step' (Handler pick) (finish' pick st) = None
  /\ ui (finish' pick st) = log ++ [showMsg prompt ch].
Proof.
  intros H Hs.
  assert (HD : deliveries sched = [] /\ existsb fires sched = false).
  { clear H. induction sched as [|[p | | pw] sched IH]; simpl in *;
      auto; discriminate. }
  destruct HD as [HD HF].
  destruct (exec_entry_Inv _ _ _ _ _ _ _ H) as (Hd & _ & Hp).
  rewrite HD, HF in Hp. rewrite HF in Hd. simpl in Hd, Hp.
  destruct st as [p u buf dn tk]; simpl in *; subst dn.
  destruct p; simpl in Hp.
  - destruct Hp as (-> & -> & -> & _). cbn. auto.
  - destruct Hp as (-> & -> & ->). cbn. auto.
  - destruct Hp as (-> & -> & -> & _). cbn. auto.
  - destruct Hp as (_ & _ & _ & HF'). discriminate.
  - destruct Hp as (_ & _ & HF'). discriminate.
  - destruct Hp as [(_ & _ & _ & _ & HF') | (_ & _ & HF')]; discriminate.
Qed.

(** X6.  With a signal at hand the handler returns within three steps,
    whichever case the runtime picks when both are ready: it returns [nil]
    after posting the hide message, or the first value sent on the result
    channel after posting nothing more. *)
Theorem handler_returns_on_a_signal
        (d : bool) (sched : list Action) st (pick : Case) :
  exec' sched (entry log d) = Some st ->
  signals sched <> [] \/ d = true ->
  exists r,
    pc (finish' pick st) = Returned r
    /\ ((r = None /\ taken (finish' pick st) = [CaseDone]
         /\ ui (finish' pick st)
            = log ++ [showMsg prompt ch; TogglePasswordMsg_zero])
        \/ (hd_error (deliveries sched) = Some r
            /\ taken (finish' pick st) = [CasePassword]
            /\ ui (finish' pick st) = log ++ [showMsg prompt ch])).
Proof.
  intros H Hs.
  assert (HS : deliveries sched <> [] \/ d || existsb fires sched = true).
  { destruct Hs as [Hs | ->]; [|right; reflexivity].
    clear H. induction sched as [|[p | | pw] sched IH]; simpl in *.
    - congruence.
    - auto.
    - right. apply orb_true_r.
    - left. discriminate. }
  destruct (exec_entry_Inv _ _ _ _ _ _ _ H) as (Hd & Hl & Hp).
  destruct st as [p u buf dn tk]; simpl in *.
  destruct p; simpl in Hp.
  - destruct Hp as (-> & -> & -> & HD).
    destruct HS as [HS | HS]; [congruence|]. rewrite HS in Hd. subst dn.
    exists None. cbn. split; [reflexivity|]. left.
    unfold post. rewrite <- app_assoc. auto.
  - destruct Hp as (-> & -> & ->).
    destruct dn, (deliveries sched) as [|pw buf] eqn:HD.
    + exists None. cbn. split; [reflexivity|]. left.
      unfold post. rewrite <- app_assoc. auto.
    + destruct pick.
      * exists None. cbn. split; [reflexivity|]. left.
        unfold post. rewrite <- app_assoc. auto.
      * exists pw. cbn. auto.
    + destruct HS as [HS | HS]; congruence.
    + exists pw. cbn. auto.
  - destruct Hp as (_ & _ & _ & HD & HF).
    destruct HS as [HS | HS]; congruence.
  - destruct Hp as (-> & -> & _).
    exists None. cbn. split; [reflexivity|]. left.
    unfold post. rewrite <- app_assoc. auto.
  - destruct Hp as (-> & -> & HD).
    exists pw. cbn. rewrite HD. auto.
  - exists r. cbn. split; [reflexivity|].
    destruct Hp as [(-> & -> & -> & _) | (-> & -> & HD)].
    + left. auto.
    + right. rewrite HD. auto.
Qed.

(** X7.  The result channel holds one value at most: a second send while
    the first is still in the buffer blocks, and no schedule gets more
    than two sends through (one taken by the handler, one left in the
    buffer). *)
Theorem result_channel_capacity (d : bool) (sched : list Action) st :
  exec' sched (entry log d) = Some st ->
  (List.length (password st) <= 1)%nat
  /\ (List.length (deliveries sched) <= 2)%nat
  /\ (password st <> [] -> forall pw, step' (Deliver pw) st = None).
Proof.
  intros H.
  destruct (exec_entry_Inv _ _ _ _ _ _ _ H) as (_ & Hl & Hp).
  split; [exact Hl|]. split.
  - destruct (pc st); simpl in Hp.
    + destruct Hp as (_ & _ & _ & ->). simpl. lia.
    + destruct Hp as (_ & _ & <-). lia.
    + destruct Hp as (_ & _ & _ & -> & _). simpl. lia.
    + destruct Hp as (_ & _ & <- & _). lia.
    + destruct Hp as (_ & _ & ->). simpl. lia.
    + destruct Hp as [(_ & _ & _ & <- & _) | (_ & _ & ->)]; simpl; lia.
  - intros Hne pw. simpl. unfold deliver.
    destruct (pc st); simpl in Hp.
    + reflexivity.
    + destruct (password st); [congruence | reflexivity].
    + destruct Hp as (_ & _ & E & _). congruence.
    + destruct (password st); [congruence | reflexivity].
    + destruct (password st); [congruence | reflexivity].
    + destruct (password st); [congruence | reflexivity].
Qed.

End HandlerMore.

(** X8.  [getVersion] never returns the empty string: the build-time
    [Version] wins when set, then the version of the build information,
    and "unknown" stands in when neither is there. *)
Theorem getVersion_never_empty (w : World) :
  getVersion w <> ""
  /\ (Version w <> "" -> getVersion w = Version w)
  /\ (Version w = "" -> forall v,
        buildInfo w = Some v -> v <> "" -> getVersion w = v)
  /\ (Version w = "" -> buildInfo w = None \/ buildInfo w = Some "" ->
      getVersion w = "unknown").
Proof.
  unfold getVersion.
  destruct (String.eqb_spec (Version w) "") as [E | E]; simpl;
    [destruct (buildInfo w) as [v|] eqn:Eb;
     [destruct (String.eqb_spec v "") as [Ev | Ev]; simpl|]|];
    (split; [try assumption; try discriminate|]);
    (split; [intros; congruence|]);
    (split; [intros; congruence|]);
    intros; intuition congruence.
Qed.

Ltac quiet_absurd :=
  match goal with
  | Hq : Forall quiet ?l, Hi : In ?e ?l |- _ =>
    exact (quiet_not_In e l Hq eq_refl Hi)
  end.

Section RunMore.

Variable TrimSpace : string -> string.

(** X9.  [--help], [--version] and [--config] are served, in this order
    of precedence, before the repository is looked for: usage and status
    0; the version on standard output and status 0; the status of
    [config.Edit()].  Nothing else is called. *)
Theorem flags_served_before_repository (w : World) (fl : Flags) :
  isSubprocess w = false ->
  flagParse w = Parsed fl ->
  (help fl = true ->
   trace (run TrimSpace w)
   = [EvNewUnstartedServer "JJUI"; EvIsSubprocess; EvFlagParse; EvFlagUsage]
   /\ status (run TrimSpace w) = 0)
  /\ (help fl = false -> version fl = true ->
      trace (run TrimSpace w)
      = [EvNewUnstartedServer "JJUI"; EvIsSubprocess; EvFlagParse;
         EvStdout (getVersion w ++ nl)%string]
      /\ status (run TrimSpace w) = 0)
  /\ (help fl = false -> version fl = false -> editConfig fl = true ->
      trace (run TrimSpace w)
      = [EvNewUnstartedServer "JJUI"; EvIsSubprocess; EvFlagParse; EvConfigEdit]
      /\ status (run TrimSpace w) = configEdit w).
Proof.
  intros Hs Hf. unfold run. rewrite run_body_unfold. cbv zeta.
  rewrite Hs. unfold run_primary, bind, emit. cbn [fst snd events].
  rewrite Hf.
  split; [|split].
  - intros ->. simpl. auto.
  - intros -> ->. simpl. auto.
  - intros -> -> ->. simpl. auto.
Qed.

(** X10.  Once the event loop has been run, the status tells how it ended:
    0 when [p.Run()] returned no error, 1 when it returned one. *)
Theorem status_of_the_event_loop (w : World) :
  In EvProgramRun (trace (run TrimSpace w)) ->
  (programRun w = None -> status (run TrimSpace w) = 0)
  /\ (forall e, programRun w = Some e ->
        status (run TrimSpace w) = 1
        /\ In (EvStdout ("Error running program: " ++ e ++ nl)%string)
              (trace (run TrimSpace w))).
Proof.
  intros Hin.
  destruct (run_shape TrimSpace w)
    as (es & [(Et & Fq) | (es0 & ds0 & G1 & G2 & Ees & Et & Est)]);
    rewrite Et in *.
  - exfalso. destruct Hin as [H | [H | H]]; try discriminate.
    exact (quiet_not_In EvProgramRun _ Fq eq_refl H).
  - rewrite Est. clear Est Et. subst es.
    unfold tail_events, tail_defers, tail_status in *.
    destruct (Ssh_HijackAskpass
                (config_Current (final (run TrimSpace w)))).
    + destruct (startListening w) as [e0|].
      * exfalso. simpl in Hin. rewrite !in_app_iff in Hin. simpl in Hin.
        intuition (try discriminate; try quiet_absurd).
      * split.
        -- intros ->. reflexivity.
        -- intros e ->. split; [reflexivity|].
           simpl. rewrite !in_app_iff. simpl. auto 12.
    + split.
      * intros ->. reflexivity.
      * intros e ->. split; [reflexivity|].
        simpl. rewrite !in_app_iff. simpl. auto 12.
Qed.

(** X11.  The askpass server is closed exactly when it was serving, and
    only after the event loop has ended. *)
Theorem server_closed_after_the_event_loop (w : World) :
  (In EvServerClose (trace (run TrimSpace w))
   <-> In EvGoServeShowPassword (trace (run TrimSpace w)))
  /\ (In EvGoServeShowPassword (trace (run TrimSpace w)) ->
      exists l1 l2 l3,
        trace (run TrimSpace w)
        = l1 ++ EvStartListening :: EvGoServeShowPassword :: EvProgramRun
             :: l2 ++ EvServerClose :: l3
        /\ ~ In EvServerClose l1 /\ ~ In EvServerClose l2
        /\ ~ In EvProgramRun l2 /\ ~ In EvProgramRun l3).
Proof.
  destruct (run_shape TrimSpace w)
    as (es & [(Et & Fq) | (es0 & ds0 & G1 & G2 & Ees & Et & Est)]);
    rewrite Et; clear Et.
  - assert (forall e, ui_event e = true ->
                      ~ In e (EvNewUnstartedServer "JJUI"
                                :: EvIsSubprocess :: es)) as Hno.
    { intros e He [H | [H | H]]; try (subst e; discriminate).
      exact (quiet_not_In _ _ Fq He H). }
    split; [split|]; intros H; exfalso; revert H; apply Hno; reflexivity.
  - clear Est. subst es. unfold tail_events, tail_defers.
    assert (Hq : forall e l, ui_event e = true -> Forall quiet l ->
                             ~ In e l).
    { intros e l He Hl. exact (quiet_not_In e l Hl He). }
    destruct (Ssh_HijackAskpass
                (config_Current (final (run TrimSpace w)))).
    + destruct (startListening w) as [e0|].
      * split; [split|]; intros H; exfalso; simpl in H;
          rewrite !in_app_iff in H; simpl in H;
          intuition (try discriminate; try quiet_absurd).
      * split.
        -- split; intros _; destruct (programRun w); simpl;
             rewrite ?in_app_iff; simpl; rewrite ?in_app_iff; simpl; tauto.
        -- intros _.
           exists (EvNewUnstartedServer "JJUI" :: EvIsSubprocess
                     :: es0 ++ [EvUINew; EvNewProgram]).
           exists (match programRun w with
                   | Some e =>
                     [EvStdout ("Error running program: " ++ e ++ nl)%string]
                   | None => []
                   end), ds0.
           split.
           { simpl. rewrite <- !app_assoc. simpl.
             destruct (programRun w); reflexivity. }
           repeat split.
           ++ intros H. simpl in H. rewrite !in_app_iff in H. simpl in H.
              intuition (try discriminate; try quiet_absurd).
           ++ destruct (programRun w); simpl; intuition discriminate.
           ++ destruct (programRun w); simpl; intuition discriminate.
           ++ apply Hq; [reflexivity | exact G2].
    + split; [split|]; intros H; exfalso; simpl in H;
        rewrite !in_app_iff in H; simpl in H;
        destruct (programRun w); simpl in H;
        intuition (try discriminate; try quiet_absurd).
Qed.

End RunMore.

Ltac clear_absurd :=
  match goal with
  | Hc : clear ?b ?l, Hi : In ?e ?l |- _ =>
    exfalso; exact (clear_not_In b e l Hc eq_refl Hi)
  end.

Section RunMore2.

Variable TrimSpace : string -> string.

Lemma flows_run_primary (w : World) :
  flows nothing
        (fun code => code = 0 \/ code = 1
                     \/ exists fl, flagParse w = Parsed fl
                                   /\ help fl = false /\ version fl = false
                                   /\ editConfig fl = true
                                   /\ code = configEdit w)
        (fun code => code = 1 \/ flagParse w = ParseExit code)
        (run_primary TrimSpace w).
Proof.
  unfold run_primary.
  apply flows_bind; [apply flows_emit | intros _].
  destruct (flagParse w) as [fl | code] eqn:Hf;
    [|apply flows_exit; auto].
  destruct (help fl) eqn:Hh; [flows_auto|].
  destruct (version fl) eqn:Hv; [flows_auto|].
  destruct (editConfig fl) eqn:He.
  - apply flows_bind; [apply flows_emit | intros _].
    apply flows_return. right; right. exists fl. auto.
  - flows_auto.
Qed.

(** X12.  The status of a run is 0 or 1, but for two cases: [--config],
    where it is the status of [config.Edit()], and a command line that
    [flag.Parse()] ends the process on. *)
Theorem exit_statuses (w : World) :
  status (run TrimSpace w) = 0
  \/ status (run TrimSpace w) = 1
  \/ (exists fl, flagParse w = Parsed fl
                 /\ help fl = false /\ version fl = false
                 /\ editConfig fl = true
                 /\ status (run TrimSpace w) = configEdit w)
  \/ flagParse w = ParseExit (status (run TrimSpace w)).
Proof.
  unfold run. rewrite run_body_unfold. cbv zeta.
  destruct (isSubprocess w); [left; reflexivity|].
  match goal with
  | |- context [run_primary TrimSpace w ?s] =>
    pose proof (flows_run_primary w s) as H;
      destruct (run_primary TrimSpace w s) as [[c | c | c] st1]
  end; simpl in *.
  - destruct H.
  - tauto.
  - tauto.
Qed.

Lemma exit_clean_setup_logging (w : World) : exit_clean (setup_logging w).
Proof.
  intros st code Hd. unfold setup_logging, bind, emit, defer, exit_; simpl.
  destruct (0 <? String.length (envDEBUG w))%nat; simpl;
    [destruct (logToFile w); simpl|]; try discriminate.
  intros _. exact Hd.
Qed.

Lemma exit_clean_run_primary (w : World) :
  exit_clean (run_primary TrimSpace w).
Proof.
  unfold run_primary.
  apply exit_clean_bind_late; [confined_auto | intros _].
  destruct (flagParse w) as [fl | code]; [|apply exit_clean_exit].
  destruct (help fl); [apply exit_clean_of_flows; flows_auto|].
  destruct (version fl); [apply exit_clean_of_flows; flows_auto|].
  destruct (editConfig fl); [apply exit_clean_of_flows; flows_auto|].
  apply exit_clean_bind_late; [confined_auto | intros rootLocation].
  apply exit_clean_bind_early;
    [apply exit_clean_setup_logging | intros _; flows_auto].
Qed.

Lemma run_trace (w : World) :
  trace (run TrimSpace w)
  = events (final (run TrimSpace w)) ++ deferred (final (run TrimSpace w)).
Proof.
  unfold run. rewrite run_body_unfold. cbv zeta.
  destruct (isSubprocess w); [reflexivity|].
  match goal with
  | |- context [run_primary TrimSpace w ?s] =>
    pose proof (exit_clean_run_primary w s) as H;
      destruct (run_primary TrimSpace w s) as [[c | c | c] st1]
  end; simpl in *; try reflexivity.
  rewrite (H c eq_refl eq_refl), app_nil_r. reflexivity.
Qed.

(** X13.  Every call [run] defers is executed: the two ways of leaving
    without returning, [flag.Parse()] and [log.Fatalf], come before the
    first [defer], so the trace is always everything that was called
    followed by everything that was deferred. *)
Theorem deferred_calls_always_run (w : World) :
  trace (run TrimSpace w)
  = events (final (run TrimSpace w)) ++ deferred (final (run TrimSpace w)).
Proof. exact (run_trace w). Qed.

(** A primary run, read through [ends_with]. *)
Lemma run_ends_with (be bd : Event -> bool)
      (Q : RunState -> Flow Z -> RunState -> Prop) (w : World) :
  ends_with be bd Q (run_primary TrimSpace w) ->
  isSubprocess w = false ->
  (exists es ds,
      events (final (run TrimSpace w))
      = EvNewUnstartedServer "JJUI" :: EvIsSubprocess :: es
      /\ deferred (final (run TrimSpace w)) = ds
      /\ clear be es /\ clear bd ds)
  \/ (exists mid es ds f,
         events mid = EvNewUnstartedServer "JJUI" :: EvIsSubprocess :: es
         /\ deferred mid = ds
         /\ clear be es /\ clear bd ds
         /\ Q mid f (final (run TrimSpace w))
         /\ match f with
            | Continue code | Return_ code | Exit_ code =>
              status (run TrimSpace w) = code
            end).
Proof.
  intros H Hs. unfold run. rewrite run_body_unfold. cbv zeta. rewrite Hs.
  match goal with
  | |- context [run_primary TrimSpace w ?s] =>
    destruct (H s)
      as [(es & ds & E1 & E2 & F1 & F2 & _)
         | (mid & es & ds & E1 & E2 & F1 & F2 & HQ)];
      destruct (run_primary TrimSpace w s) as [f st1]
  end; cbn [fst snd events deferred app] in *.
  - left. exists es, ds. rewrite app_nil_r in E2.
    destruct f; cbn [final]; auto.
  - right. exists mid, es, ds, f. rewrite app_nil_r in E2.
    destruct f; cbn [final status]; auto 10.
Qed.

Lemma not_log_close_inv (l : list Event) :
  clear not_log_close l -> Forall (fun e => e = EvLogFileClose) l.
Proof.
  intros H. eapply Forall_impl; [|exact H].
  intros e He. destruct e; try discriminate. reflexivity.
Qed.

Lemma ends_with_app_context (w : World) :
  ends_with from_context not_log_close
            (fun mid f st' =>
               exists root es ds,
                 events st' = events mid ++ EvNewAppContext root :: es
                 /\ deferred st' = ds ++ EvHistoriesFlush :: deferred mid
                 /\ clear is_app_context es /\ clear is_app_context ds)
            (run_primary TrimSpace w).
Proof.
  unfold run_primary.
  apply ends_with_bind; [confined_auto | intros _].
  destruct (flagParse w) as [fl | code]; [|apply ends_with_exit].
  destruct (help fl);
    [apply ends_with_bind; [confined_auto | intros; apply ends_with_return]|].
  destruct (version fl);
    [apply ends_with_bind; [confined_auto | intros; apply ends_with_return]|].
  destruct (editConfig fl);
    [apply ends_with_bind; [confined_auto | intros; apply ends_with_return]|].
  apply ends_with_bind; [confined_auto | intros rootLocation].
  apply ends_with_bind; [confined_auto | intros _].
  apply ends_with_bind; [confined_auto | intros _].
  apply ends_with_base. intros st.
  rewrite bind_emit, bind_defer.
  match goal with
  | |- context [bind (load_config w) ?k ?s] =>
    assert (HR : confined is_app_context is_app_context
                          (bind (load_config w) k)) by confined_auto;
      destruct (HR s) as (es & ds & E1 & E2 & F1 & F2)
  end.
  exists rootLocation, es, ds.
  rewrite E1, E2. cbn [events deferred]. rewrite <- app_assoc. auto.
Qed.

(** X14.  Once the application context exists its histories are flushed,
    on every way out of [run]: after everything else, the closing of the
    Lua VM and of the askpass server included, and followed by nothing but
    the closing of the debug log. *)
Theorem histories_flushed_last (w : World) (r : string) :
  In (EvNewAppContext r) (trace (run TrimSpace w)) ->
  exists l1 l2 l3,
    trace (run TrimSpace w)
    = l1 ++ EvNewAppContext r :: l2 ++ EvHistoriesFlush :: l3
    /\ clear from_context l1
    /\ clear is_app_context l2
    /\ Forall (fun e => e = EvLogFileClose) l3.
Proof.
  intros Hin.
  destruct (isSubprocess w) eqn:Hs.
  { destruct (run_stub TrimSpace w Hs) as (Et & _). rewrite Et in Hin.
    simpl in Hin. intuition discriminate. }
  rewrite run_trace in *.
  destruct (run_ends_with _ _ _ w (ends_with_app_context w) Hs)
    as [(es & ds & E1 & E2 & F1 & F2)
       | (mid & es & ds & f & E1 & E2 & F1 & F2 & HQ & _)].
  - exfalso. rewrite E1, E2 in Hin.
    apply not_log_close_inv in F2. rewrite Forall_forall in F2.
    simpl in Hin. rewrite in_app_iff in Hin.
    destruct Hin as [H | [H | [H | H]]]; try discriminate.
    + clear_absurd.
    + specialize (F2 _ H). discriminate.
  - destruct HQ as (root & es' & ds' & E3 & E4 & F3 & F4).
    rewrite E3, E4 in *. rewrite E1, E2 in *.
    assert (F0 : clear from_context
                       (EvNewUnstartedServer "JJUI" :: EvIsSubprocess :: es)).
    { repeat constructor. exact F1. }
    assert (r = root) as <-.
    { pose proof (not_log_close_inv _ F2) as F2'.
      rewrite Forall_forall in F2'.
      rewrite ?in_app_iff in Hin; simpl in Hin;
        rewrite ?in_app_iff in Hin; simpl in Hin.
      intuition (try discriminate; try congruence; try clear_absurd;
                 try match goal with
                     | H : In _ ds |- _ =>
                       specialize (F2' _ H); discriminate
                     end). }
    exists (EvNewUnstartedServer "JJUI" :: EvIsSubprocess :: es),
      (es' ++ ds'), ds.
    split.
    { rewrite <- ?app_assoc. simpl. rewrite <- ?app_assoc. reflexivity. }
    split; [exact F0|]. split; [apply clear_app; auto|].
    apply not_log_close_inv. exact F2.
Qed.

Lemma ends_with_lua_vm (w : World) :
  ends_with is_vm is_vm
            (fun mid f st' =>
               exists es,
                 events st' = events mid ++ EvInitVM :: es
                 /\ clear is_vm es
                 /\ ((initVM w <> None /\ deferred st' = deferred mid)
                     \/ (initVM w = None
                         /\ exists ds,
                             deferred st' = ds ++ EvCloseVM :: deferred mid
                             /\ clear is_vm ds)))
            (run_primary TrimSpace w).
Proof.
  unfold run_primary.
  apply ends_with_bind; [confined_auto | intros _].
  destruct (flagParse w) as [fl | code]; [|apply ends_with_exit].
  destruct (help fl);
    [apply ends_with_bind; [confined_auto | intros; apply ends_with_return]|].
  destruct (version fl);
    [apply ends_with_bind; [confined_auto | intros; apply ends_with_return]|].
  destruct (editConfig fl);
    [apply ends_with_bind; [confined_auto | intros; apply ends_with_return]|].
  do 6 (apply ends_with_bind; [confined_auto | intros]).
  apply ends_with_base. intros st.
  unfold load_lua. rewrite bind_assoc, bind_emit.
  destruct (initVM w) as [e|] eqn:Hv.
  - rewrite bind_assoc, bind_emit. unfold bind, return_. cbn [fst snd events deferred].
    eexists. rewrite <- app_assoc. cbn [app].
    split; [reflexivity|]. split; [repeat constructor|].
    left. split; [discriminate | reflexivity].
  - rewrite bind_assoc, bind_defer.
    match goal with
    | |- context [bind ?m ?k ?s] =>
      assert (HR : confined is_vm is_vm (bind m k)) by confined_auto;
        destruct (HR s) as (es & ds & E1 & E2 & F1 & F2)
    end.
    exists es. rewrite E1, E2. cbn [events deferred].
    rewrite <- app_assoc. cbn [app].
    split; [reflexivity|]. split; [exact F1|].
    right. split; [reflexivity|]. exists ds. auto.
Qed.

(** X15.  The Lua VM is closed exactly when it was initialised with
    success, on every way out of [run] after that, and the two calls are
    the only ones of their kind in a run. *)
Theorem lua_vm_closed_when_initialised (w : World) :
  (In EvCloseVM (trace (run TrimSpace w))
   <-> In EvInitVM (trace (run TrimSpace w)) /\ initVM w = None)
  /\ (In EvCloseVM (trace (run TrimSpace w)) ->
      exists l1 l2 l3,
        trace (run TrimSpace w) = l1 ++ EvInitVM :: l2 ++ EvCloseVM :: l3
        /\ clear is_vm l1 /\ clear is_vm l2 /\ clear is_vm l3).
Proof.
  destruct (isSubprocess w) eqn:Hs.
  { destruct (run_stub TrimSpace w Hs) as (Et & _). rewrite Et.
    split; [split|]; simpl; intuition discriminate. }
  rewrite run_trace.
  destruct (run_ends_with _ _ _ w (ends_with_lua_vm w) Hs)
    as [(es & ds & E1 & E2 & F1 & F2)
       | (mid & es & ds & f & E1 & E2 & F1 & F2 & HQ & _)].
  - rewrite E1, E2.
    split; [split|]; intros H; exfalso;
      repeat (rewrite ?in_app_iff in H; simpl in H);
      intuition (try discriminate; try clear_absurd).
  - destruct HQ as (es' & E3 & F3 & HD).
    rewrite E3, E1. rewrite E2 in HD.
    assert (F0 : clear is_vm
                       (EvNewUnstartedServer "JJUI" :: EvIsSubprocess :: es)).
    { repeat constructor. exact F1. }
    destruct HD as [(Hv & ->) | (Hv & ds' & -> & F4)].
    + split; [split|]; intros H; exfalso;
        repeat (rewrite ?in_app_iff in H; simpl in H);
        intuition (try discriminate; try clear_absurd).
    + split; [split|].
      * intros _. split; [|exact Hv].
        repeat (rewrite ?in_app_iff; simpl). auto 10.
      * intros _. repeat (rewrite ?in_app_iff; simpl). auto 10.
      * intros _.
        exists (EvNewUnstartedServer "JJUI" :: EvIsSubprocess :: es),
          (es' ++ ds'), ds.
        split.
        { rewrite <- ?app_assoc. simpl. rewrite <- ?app_assoc. reflexivity. }
        split; [exact F0|]. split; [apply clear_app; auto | exact F2].
Qed.

(** Lines 217-234 leave the configuration and the revsets alone. *)
Lemma start_ui_state (w : World) (st : RunState) :
  config_Current (snd (start_ui w st)) = config_Current st
  /\ DefaultRevset (snd (start_ui w st)) = DefaultRevset st
  /\ CurrentRevset (snd (start_ui w st)) = CurrentRevset st.
Proof.
  unfold start_ui, bind, emit, defer, get_config, when, return_, ret.
  cbn [fst snd config_Current].
  destruct (Ssh_HijackAskpass (config_Current st));
    [destruct (startListening w)|];
    destruct (programRun w); cbn; auto.
Qed.

Lemma ends_with_overrides (w : World) :
  ends_with is_program_run is_program_run
            (fun mid f st' =>
               exists fl,
                 flagParse w = Parsed fl
                 /\ config_Current st'
                    = (if 0 <=? period fl
                       then set_AutoRefreshInterval (period fl)
                                                    (config_Current mid)
                       else config_Current mid)
                 /\ DefaultRevset st'
                    = chosenRevset w fl (config_Current st')
                 /\ CurrentRevset st' = DefaultRevset st')
            (run_primary TrimSpace w).
Proof.
  unfold run_primary.
  apply ends_with_bind; [confined_auto | intros _].
  destruct (flagParse w) as [fl | code] eqn:Hf; [|apply ends_with_exit].
  destruct (help fl);
    [apply ends_with_bind; [confined_auto | intros; apply ends_with_return]|].
  destruct (version fl);
    [apply ends_with_bind; [confined_auto | intros; apply ends_with_return]|].
  destruct (editConfig fl);
    [apply ends_with_bind; [confined_auto | intros; apply ends_with_return]|].
  do 12 (apply ends_with_bind; [confined_auto | intros]).
  apply ends_with_base. intros st. exists fl. split; [reflexivity|].
  unfold when, chosenRevset.
  destruct (0 <=? period fl);
    rewrite ?bind_assoc, ?bind_ret, ?bind_get_config, ?bind_put_config,
      ?bind_get_config, ?bind_set_revsets;
    match goal with
    | |- context [start_ui w ?s] =>
      destruct (start_ui_state w s) as (E1 & E2 & E3);
        rewrite E1, E2, E3
    end; cbn; auto.
Qed.

(** X16.  When the event loop is run, the command line has had the last
    word: a [--period] of 0 or more is the refresh interval of the
    configuration, and the default revset is [--revset] if given, else
    the one of the configuration if it has one, else the one of jj; the
    current revset is the default one. *)
Theorem command_line_overrides (w : World) :
  In EvProgramRun (trace (run TrimSpace w)) ->
  exists fl,
    flagParse w = Parsed fl
    /\ (0 <= period fl ->
        UI_AutoRefreshInterval (config_Current (final (run TrimSpace w)))
        = period fl)
    /\ (revset fl <> "" ->
        DefaultRevset (final (run TrimSpace w)) = revset fl)
    /\ (revset fl = "" ->
        Revisions_Revset (config_Current (final (run TrimSpace w))) <> "" ->
        DefaultRevset (final (run TrimSpace w))
        = Revisions_Revset (config_Current (final (run TrimSpace w))))
    /\ (revset fl = "" ->
        Revisions_Revset (config_Current (final (run TrimSpace w))) = "" ->
        DefaultRevset (final (run TrimSpace w)) = jjRevsetsLog w)
    /\ CurrentRevset (final (run TrimSpace w))
       = DefaultRevset (final (run TrimSpace w)).
Proof.
  intros Hin.
  destruct (isSubprocess w) eqn:Hs.
  { destruct (run_stub TrimSpace w Hs) as (Et & _). rewrite Et in Hin.
    simpl in Hin. intuition discriminate. }
  rewrite run_trace in Hin.
  destruct (run_ends_with _ _ _ w (ends_with_overrides w) Hs)
    as [(es & ds & E1 & E2 & F1 & F2)
       | (mid & es & ds & f & E1 & E2 & F1 & F2 & HQ & _)].
  - exfalso. rewrite E1, E2 in Hin.
    repeat (rewrite ?in_app_iff in Hin; simpl in Hin).
    intuition (try discriminate; try clear_absurd).
  - destruct HQ as (fl & Hf & Ec & Ed & Ecur).
    exists fl. split; [exact Hf|].
    rewrite Ed, Ecur, Ed. unfold chosenRevset.
    split.
    { intros Hp. rewrite Ec.
      destruct (Z.leb_spec 0 (period fl)); [reflexivity | lia]. }
    destruct (String.eqb_spec (revset fl) "") as [Er | Er]; simpl;
      [destruct (String.eqb_spec
                   (Revisions_Revset
                      (config_Current (final (run TrimSpace w)))) "")
        as [Ev | Ev]; simpl|];
      repeat split; intros; congruence.
Qed.

Lemma ends_with_jj_root (w : World) :
  ends_with is_jj_root any_event
            (fun mid f st' =>
               exists fl,
                 flagParse w = Parsed fl
                 /\ ((exists es,
                         events st' = events mid ++ es
                         /\ clear is_jj_root es
                         /\ deferred st' = deferred mid)
                     \/ (exists d pre es ds,
                            ((hd "" (args fl) = d /\ d <> "")
                             \/ (hd "" (args fl) = "" /\ getwd w = inl d))
                            /\ events st'
                               = events mid ++ pre ++ EvExecJJRoot d :: es
                            /\ deferred st' = ds ++ deferred mid
                            /\ clear is_jj_root pre
                            /\ clear is_jj_root es
                            /\ clear is_jj_root ds
                            /\ (forall s, execJJRoot w d = CmdExitError s ->
                                  f = Return_ 1
                                  /\ es = [EvStderr (TrimSpace s ++ nl)%string]
                                  /\ ds = [])
                            /\ (forall e, execJJRoot w d = CmdError e ->
                                  f = Return_ 1
                                  /\ es = [EvStderr (e ++ nl)%string]
                                  /\ ds = []))))
            (run_primary TrimSpace w).
Proof.
  unfold run_primary.
  apply ends_with_bind; [confined_auto | intros _].
  destruct (flagParse w) as [fl | code] eqn:Hf; [|apply ends_with_exit].
  destruct (help fl);
    [apply ends_with_bind; [confined_auto | intros; apply ends_with_return]|].
  destruct (version fl);
    [apply ends_with_bind; [confined_auto | intros; apply ends_with_return]|].
  destruct (editConfig fl);
    [apply ends_with_bind; [confined_auto | intros; apply ends_with_return]|].
  apply ends_with_base. intros st. exists fl. split; [reflexivity|].
  unfold locate, getJJRootDir. cbv zeta.
  change (match args fl with a :: _ => a | [] => "" end)
    with (hd "" (args fl)).
  destruct (String.eqb_spec (hd "" (args fl)) "") as [El | El]; run_steps.
  1: destruct (getwd w) as [d | e] eqn:Hg; run_steps.
  1: destruct (execJJRoot w d) as [out | s | e] eqn:Hx; run_steps.
  5: destruct (execJJRoot w (hd "" (args fl))) as [out | s | e] eqn:Hx;
    run_steps.
  all: try match goal with
           | |- context [bind (setup_logging ?w0) ?k ?s0] =>
             assert (HR : confined is_jj_root is_jj_root
                                   (bind (setup_logging w0) k))
               by confined_auto;
               destruct (HR s0) as (es & ds & E1 & E2 & F1 & F2)
           end.
  - right. exists d, [EvGetwd], es, ds.
    rewrite E1, E2. cbn [events deferred]. rewrite <- !app_assoc. cbn [app].
    split; [auto|]. split; [reflexivity|]. split; [reflexivity|].
    split; [repeat constructor|]. split; [exact F1|]. split; [exact F2|].
    rewrite Hx. split; intros; discriminate.
  - right. exists d, [EvGetwd], [EvStderr (TrimSpace s ++ nl)%string], [].
    cbn [fst snd events deferred]. rewrite <- !app_assoc. cbn [app].
    split; [auto|]. split; [reflexivity|]. split; [reflexivity|].
    split; [repeat constructor|]. split; [repeat constructor|].
    split; [constructor|]. rewrite Hx.
    split; intros ? E; [injection E as <-; auto | discriminate].
  - right. exists d, [EvGetwd], [EvStderr (e ++ nl)%string], [].
    cbn [fst snd events deferred]. rewrite <- !app_assoc. cbn [app].
    split; [auto|]. split; [reflexivity|]. split; [reflexivity|].
    split; [repeat constructor|]. split; [repeat constructor|].
    split; [constructor|]. rewrite Hx.
    split; intros ? E; [discriminate | injection E as <-; auto].
  - left. eexists. cbn [fst snd events deferred]. rewrite <- !app_assoc.
    cbn [app]. split; [reflexivity|]. split; [repeat constructor | reflexivity].
  - right. exists (hd "" (args fl)), [], es, ds.
    rewrite E1, E2. cbn [events deferred]. rewrite <- ?app_assoc. cbn [app].
    split; [auto|]. split; [reflexivity|]. split; [reflexivity|].
    split; [constructor|]. split; [exact F1|]. split; [exact F2|].
    rewrite Hx. split; intros; discriminate.
  - right.
    exists (hd "" (args fl)), [], [EvStderr (TrimSpace s ++ nl)%string], [].
    cbn [fst snd events deferred]. rewrite <- ?app_assoc. cbn [app].
    split; [auto|]. split; [reflexivity|]. split; [reflexivity|].
    split; [constructor|]. split; [repeat constructor|].
    split; [constructor|]. rewrite Hx.
    split; intros ? E; [injection E as <-; auto | discriminate].
  - right. exists (hd "" (args fl)), [], [EvStderr (e ++ nl)%string], [].
    cbn [fst snd events deferred]. rewrite <- ?app_assoc. cbn [app].
    split; [auto|]. split; [reflexivity|]. split; [reflexivity|].
    split; [constructor|]. split; [repeat constructor|].
    split; [constructor|]. rewrite Hx.
    split; intros ? E; [discriminate | injection E as <-; auto].
Qed.

(** X17.  [jj root] is run once at most, in the first argument of the
    command line when there is one that is not empty and in the working
    directory otherwise; when it fails, the error is the last thing [run]
    writes, on standard error, and the status is 1: for a command that
    exited with an error, its trimmed standard error. *)
Theorem jj_root_location_and_failure (w : World) (d : string) :
  In (EvExecJJRoot d) (trace (run TrimSpace w)) ->
  exists fl,
    flagParse w = Parsed fl
    /\ ((hd "" (args fl) = d /\ d <> "")
        \/ (hd "" (args fl) = "" /\ getwd w = inl d))
    /\ (exists l1 l2,
           trace (run TrimSpace w) = l1 ++ EvExecJJRoot d :: l2
           /\ clear is_jj_root l1 /\ clear is_jj_root l2)
    /\ (forall s, execJJRoot w d = CmdExitError s ->
          status (run TrimSpace w) = 1
          /\ exists l1,
              trace (run TrimSpace w)
              = l1 ++ [EvExecJJRoot d; EvStderr (TrimSpace s ++ nl)%string])
    /\ (forall e, execJJRoot w d = CmdError e ->
          status (run TrimSpace w) = 1
          /\ exists l1,
              trace (run TrimSpace w)
              = l1 ++ [EvExecJJRoot d; EvStderr (e ++ nl)%string]).
Proof.
  intros Hin.
  destruct (isSubprocess w) eqn:Hs.
  { destruct (run_stub TrimSpace w Hs) as (Et & _). rewrite Et in Hin.
    simpl in Hin. intuition discriminate. }
  rewrite run_trace in *.
  destruct (run_ends_with _ _ _ w (ends_with_jj_root w) Hs)
    as [(es & ds & E1 & E2 & F1 & F2)
       | (mid & es & ds & f & E1 & E2 & F1 & F2 & HQ & Hst)].
  - exfalso. rewrite E1, E2 in Hin.
    assert (ds = []) as ->.
    { destruct ds; [reflexivity|]. inversion F2; discriminate. }
    repeat (rewrite ?in_app_iff in Hin; simpl in Hin).
    intuition (try discriminate; try clear_absurd).
  - assert (ds = []) as ->.
    { destruct ds; [reflexivity|]. inversion F2; discriminate. }
    assert (F0 : clear is_jj_root
                       (EvNewUnstartedServer "JJUI" :: EvIsSubprocess :: es)).
    { repeat constructor. exact F1. }
    destruct HQ as (fl & Hf & [(es' & E3 & F3 & E4)
                              | (d' & pre & es' & ds' & Hloc & E3 & E4
                                 & F3 & F4 & F5 & Hx & He)]).
    + exfalso. rewrite E3, E4, E1, E2 in Hin.
      repeat (rewrite ?in_app_iff in Hin; simpl in Hin).
      intuition (try discriminate; try clear_absurd).
    + rewrite E3, E4, E1, E2 in *. rewrite app_nil_r in *.
      assert (d = d') as <-.
      { repeat (rewrite ?in_app_iff in Hin; simpl in Hin).
        intuition (try discriminate; try congruence; try clear_absurd). }
      exists fl. split; [exact Hf|]. split; [exact Hloc|].
      split; [|split].
      * exists ((EvNewUnstartedServer "JJUI" :: EvIsSubprocess :: es) ++ pre),
          (es' ++ ds').
        split.
        { rewrite <- ?app_assoc. simpl. rewrite <- ?app_assoc. reflexivity. }
        split; apply clear_app; auto.
      * intros s Hs'. destruct (Hx s Hs') as (-> & -> & ->).
        split; [exact Hst|].
        exists ((EvNewUnstartedServer "JJUI" :: EvIsSubprocess :: es) ++ pre).
        rewrite <- ?app_assoc. simpl. rewrite <- ?app_assoc.
        rewrite ?app_nil_r. reflexivity.
      * intros e Hs'. destruct (He e Hs') as (-> & -> & ->).
        split; [exact Hst|].
        exists ((EvNewUnstartedServer "JJUI" :: EvIsSubprocess :: es) ++ pre).
        rewrite <- ?app_assoc. simpl. rewrite <- ?app_assoc.
        rewrite ?app_nil_r. reflexivity.
Qed.

Lemma loud_run_primary (w : World) (fl : Flags) :
  flagParse w = Parsed fl ->
  editConfig fl = false \/ help fl = true \/ version fl = true ->
  loud false (run_primary TrimSpace w).
Proof.
  intros Hf Hc. unfold run_primary.
  apply loud_bind; [apply loud_emit | intros _].
  rewrite Hf.
  destruct (help fl); [loud_auto|].
  destruct (version fl); [loud_auto|].
  destruct (editConfig fl); [|loud_auto].
  destruct Hc as [H | [H | H]]; discriminate.
Qed.

(** X18.  [run] does not fail in silence: but for [--config], whose status
    is the one of [config.Edit()], a run that parsed its command line and
    ends with a status other than 0 has written a message, on standard
    error, on standard output or in the log. *)
Theorem failures_come_with_a_message (w : World) (fl : Flags) :
  flagParse w = Parsed fl ->
  editConfig fl = false \/ help fl = true \/ version fl = true ->
  status (run TrimSpace w) <> 0 ->
  Exists (fun e => is_message e = true) (trace (run TrimSpace w)).
Proof.
  intros Hf Hc Hst.
  rewrite run_trace. apply Exists_app. left.
  revert Hst. unfold run. rewrite run_body_unfold. cbv zeta.
  destruct (isSubprocess w); [intros H; exfalso; apply H; reflexivity|].
  match goal with
  | |- context [run_primary TrimSpace w ?s] =>
    pose proof (flows_run_primary w s) as HF;
      destruct (loud_run_primary w fl Hf Hc s) as (es & E1 & HL);
      destruct (run_primary TrimSpace w s) as [[c | c | c] st1]
  end; cbn [fst snd status final] in *.
  - destruct HF.
  - intros Hne. rewrite E1. apply Exists_app. right.
    destruct HL as [H | [H | H]]; [congruence | discriminate | exact H].
  - intros Hne. rewrite E1. apply Exists_app. right.
    destruct HL as [H | [H | H]]; [congruence | discriminate | exact H].
Qed.

Lemma cont_locate (w : World) (fl : Flags) :
  continues_only_if (exists d out, execJJRoot w d = CmdOk out)
                    (locate TrimSpace w fl).
Proof.
  intros st a. unfold locate, getJJRootDir. cbv zeta.
  destruct (match args fl with a0 :: _ => a0 | [] => "" end =? "")%string;
    run_steps.
  - destruct (getwd w) as [d | e]; run_steps; [|discriminate].
    destruct (execJJRoot w d) eqn:Hx; run_steps; try discriminate.
    intros _. eauto.
  - destruct (execJJRoot w _) eqn:Hx; run_steps; try discriminate.
    intros _. eauto.
Qed.

Lemma cont_setup_logging (w : World) :
  continues_only_if (envDEBUG w <> "" -> logToFile w = None)
                    (setup_logging w).
Proof.
  intros st a. unfold setup_logging. run_steps.
  destruct (envDEBUG w) as [|c s]; simpl.
  - intros _ H. congruence.
  - run_steps. destruct (logToFile w); run_steps; [discriminate | auto].
Qed.

Lemma cont_load_config (w : World) :
  continues_only_if (forall e, loadConfigFile w <> ConfigErr e)
                    (load_config w).
Proof.
  intros st a. unfold load_config. run_steps.
  destruct (loadConfigFile w); run_steps;
    try discriminate; intros _ e0; discriminate.
Qed.

Lemma cont_load_lua (w : World) :
  continues_only_if (initVM w = None
                     /\ exists src, loadLuaConfigFile w = inl src)
                    (load_lua w).
Proof.
  intros st a. unfold load_lua. run_steps.
  destruct (initVM w); run_steps; [discriminate|].
  destruct (loadLuaConfigFile w) as [src | e]; run_steps; [|discriminate].
  intros _. eauto.
Qed.

Lemma cont_load_themes (w : World) :
  continues_only_if (loadEmbeddedTheme w (defaultThemeName w) = None)
                    (load_themes w).
Proof.
  intros st a. unfold load_themes, defaultThemeName. cbv zeta. run_steps.
  destruct (loadEmbeddedTheme w _); run_steps; [discriminate | auto].
Qed.

Lemma ends_with_startup (w : World) :
  ends_with is_program_run is_program_run
            (fun _ _ _ =>
               exists fl,
                 flagParse w = Parsed fl
                 /\ help fl = false /\ version fl = false
                 /\ editConfig fl = false
                 /\ (exists d out, execJJRoot w d = CmdOk out)
                 /\ (envDEBUG w <> "" -> logToFile w = None)
                 /\ (forall e, loadConfigFile w <> ConfigErr e)
                 /\ initVM w = None
                 /\ (exists src, loadLuaConfigFile w = inl src)
                 /\ loadEmbeddedTheme w (defaultThemeName w) = None)
            (run_primary TrimSpace w).
Proof.
  unfold run_primary.
  apply ends_with_bind; [confined_auto | intros _].
  destruct (flagParse w) as [fl | code] eqn:Hf; [|apply ends_with_exit].
  destruct (help fl) eqn:Hh;
    [apply ends_with_bind; [confined_auto | intros; apply ends_with_return]|].
  destruct (version fl) eqn:Hv;
    [apply ends_with_bind; [confined_auto | intros; apply ends_with_return]|].
  destruct (editConfig fl) eqn:He;
    [apply ends_with_bind; [confined_auto | intros; apply ends_with_return]|].
  eapply ends_with_bind_if;
    [confined_auto | apply cont_locate | intros rootLocation H1].
  eapply ends_with_bind_if;
    [confined_auto | apply cont_setup_logging | intros _ H2].
  do 3 (apply ends_with_bind; [confined_auto | intros]).
  eapply ends_with_bind_if;
    [confined_auto | apply cont_load_config | intros _ H3].
  eapply ends_with_bind_if;
    [confined_auto | apply cont_load_lua | intros _ [H4 H5]].
  eapply ends_with_bind_if;
    [confined_auto | apply cont_load_themes | intros theme H6].
  do 7 (apply ends_with_bind; [confined_auto | intros]).
  apply ends_with_base. intros st. exists fl. auto 12.
Qed.


Lemma event_loop_parsed (w : World) :
  In EvProgramRun (trace (run TrimSpace w)) ->
  exists fl, flagParse w = Parsed fl.
Proof.
  intros Hin.
  destruct (isSubprocess w) eqn:Hs.
  { destruct (run_stub TrimSpace w Hs) as (Et & _). rewrite Et in Hin.
    simpl in Hin. intuition discriminate. }
  rewrite run_trace in Hin.
  destruct (run_ends_with _ _ _ w (ends_with_startup w) Hs)
    as [(es & ds & E1 & E2 & F1 & F2)
       | (mid & es & ds & f & E1 & E2 & F1 & F2 & (fl & Hf & _) & _)].
  - exfalso. rewrite E1, E2 in Hin.
    repeat (rewrite ?in_app_iff in Hin; simpl in Hin).
    intuition (try discriminate; try clear_absurd).
  - eauto.
Qed.

End RunMore2.

(** *** The configuration, from one source to the next *)

Lemma config_after_same {A} (m : M A) :
  (forall st, config_Current (snd (m st)) = config_Current st) ->
  config_after (fun c => c) m.
Proof. intros H st a _. apply H. Qed.

Lemma config_after_bind {A B} (g1 g2 : Config -> Config)
      (m : M A) (k : A -> M B) :
  config_after g1 m -> (forall a, config_after g2 (k a)) ->
  config_after (fun c => g2 (g1 c)) (bind m k).
Proof.
  intros Hm Hk st b. unfold bind. specialize (Hm st).
  destruct (m st) as [[a | c | c] st1]; simpl in *; try discriminate.
  intros E. rewrite (Hk a st1 b E), (Hm a eq_refl). reflexivity.
Qed.

Lemma for_each_emit_config {A} (l : list A) (f : A -> Event) (st : RunState) :
  config_Current (snd (for_each l (fun a => emit (f a)) st))
  = config_Current st
  /\ exists a, fst (for_each l (fun a => emit (f a)) st) = Continue a.
Proof.
  revert st. induction l as [|x l IH]; intros st; simpl.
  - split; [reflexivity | eauto].
  - rewrite bind_emit. destruct (IH {|
        config_Current := config_Current st;
        DefaultRevset := DefaultRevset st;
        CurrentRevset := CurrentRevset st;
        events := events st ++ [f x];
        deferred := deferred st |}) as [E1 E2].
    rewrite E1. auto.
Qed.

Section Pipeline.

Variable TrimSpace : string -> string.

Lemma config_after_locate (w : World) (fl : Flags) :
  config_after (fun c => c) (locate TrimSpace w fl).
Proof.
  apply config_after_same. intros st.
  unfold locate, getJJRootDir. cbv zeta.
  destruct (match args fl with a0 :: _ => a0 | [] => "" end =? "")%string;
    run_all;
    [destruct (getwd w); run_all; [|reflexivity]|];
    destruct (execJJRoot w _); run_all; reflexivity.
Qed.

Lemma config_after_setup_logging (w : World) :
  config_after (fun c => c) (setup_logging w).
Proof.
  apply config_after_same. intros st. unfold setup_logging. run_all.
  destruct (0 <? String.length (envDEBUG w))%nat; run_all;
    [destruct (logToFile w); run_all|]; reflexivity.
Qed.

Lemma config_after_load_config (w : World) :
  config_after (after_config_file w) (load_config w).
Proof.
  intros st a. unfold load_config, after_config_file. run_all.
  destruct (loadConfigFile w) as [output | | e]; run_all.
  - destruct (snd (configLoad w output (config_Current st)));
      run_all; [discriminate|].
    intros _.
    match goal with
    | |- context [for_each ?l (fun x => emit (@?f x)) ?s] =>
      destruct (for_each_emit_config l f s) as [E _]; rewrite E
    end.
    reflexivity.
  - reflexivity.
  - discriminate.
Qed.

Lemma config_after_load_lua (w : World) :
  config_after (after_config_lua w) (load_lua w).
Proof.
  intros st a. unfold load_lua, after_config_lua, when. run_all.
  destruct (initVM w); run_all; [discriminate|].
  destruct (loadLuaConfigFile w) as [src | e]; run_all; [|discriminate].
  destruct (negb (src =? "")%string); run_all; [|reflexivity].
  destruct (snd (runSetup w src (config_Current st))); run_all;
    [discriminate | reflexivity].
Qed.

Lemma config_after_load_themes (w : World) :
  config_after (fun c => c) (load_themes w).
Proof.
  apply config_after_same. intros st. unfold load_themes. cbv zeta.
  run_all.
  destruct (loadEmbeddedTheme w _); run_all; [reflexivity|].
  destruct (negb _); run_all; [|reflexivity].
  destruct (loadTheme w _); run_all; reflexivity.
Qed.

Lemma config_at_event_loop_return (g : Config -> Config) (code : Z) :
  config_at_event_loop g (return_ code).
Proof.
  intros st. exists [], []. simpl. rewrite app_nil_r.
  split; [reflexivity|]. split; [reflexivity|].
  split; [constructor | contradiction].
Qed.

Lemma config_at_event_loop_exit (g : Config -> Config) (code : Z) :
  config_at_event_loop g (exit_ code).
Proof.
  intros st. exists [], []. simpl. rewrite app_nil_r.
  split; [reflexivity|]. split; [reflexivity|].
  split; [constructor | contradiction].
Qed.

Lemma config_at_event_loop_bind {A} (g1 g2 G : Config -> Config)
      (m : M A) (k : A -> M Z) :
  (forall c, G c = g2 (g1 c)) ->
  confined is_program_run is_program_run m ->
  config_after g1 m ->
  (forall a, config_at_event_loop g2 (k a)) ->
  config_at_event_loop G (bind m k).
Proof.
  intros HG Hc Hm Hk st. unfold bind.
  destruct (Hc st) as (es & ds & E1 & E2 & F1 & F2).
  specialize (Hm st).
  destruct (m st) as [[a | c | c] st1]; cbn [fst snd] in *.
  - destruct (Hk a st1) as (es' & ds' & E1' & E2' & F2' & H').
    exists (es ++ es'), (ds' ++ ds).
    rewrite E1', E2', E1, E2, !app_assoc.
    split; [reflexivity|]. split; [reflexivity|].
    split; [apply clear_app; auto|].
    intros Hin. apply in_app_or in Hin. destruct Hin as [Hin | Hin].
    + clear_absurd.
    + rewrite (H' Hin), (Hm a eq_refl), HG. reflexivity.
  - exists es, ds. repeat split; auto. intros Hin. clear_absurd.
  - exists es, ds. repeat split; auto. intros Hin. clear_absurd.
Qed.

Lemma config_at_event_loop_start_ui (w : World) :
  config_at_event_loop (fun c => c) (start_ui w).
Proof.
  intros st.
  assert (H : confined no_event is_program_run (start_ui w))
    by confined_auto.
  destruct (H st) as (es & ds & E1 & E2 & _ & F2).
  exists es, ds. repeat split; auto. intros _. apply start_ui_state.
Qed.

Ltac same_config := apply config_after_same; intros; reflexivity.

Lemma config_at_event_loop_run_primary (w : World) (fl : Flags) :
  flagParse w = Parsed fl ->
  config_at_event_loop (configured w fl) (run_primary TrimSpace w).
Proof.
  intros Hf. unfold run_primary.
  apply (config_at_event_loop_bind (fun c => c) (configured w fl));
    [reflexivity | confined_auto | same_config | intros _].
  rewrite Hf.
  destruct (help fl);
    [apply (config_at_event_loop_bind (fun c => c) (configured w fl));
     [reflexivity | confined_auto | same_config
      | intros; apply config_at_event_loop_return]|].
  destruct (version fl);
    [apply (config_at_event_loop_bind (fun c => c) (configured w fl));
     [reflexivity | confined_auto | same_config
      | intros; apply config_at_event_loop_return]|].
  destruct (editConfig fl);
    [apply (config_at_event_loop_bind (fun c => c) (configured w fl));
     [reflexivity | confined_auto | same_config
      | intros; apply config_at_event_loop_return]|].
  apply (config_at_event_loop_bind (fun c => c) (configured w fl));
    [reflexivity | confined_auto | apply config_after_locate
     | intros rootLocation].
  apply (config_at_event_loop_bind (fun c => c) (configured w fl));
    [reflexivity | confined_auto | apply config_after_setup_logging
     | intros _].
  apply (config_at_event_loop_bind
           (after_limit fl)
           (fun c => after_period fl
                       (after_config_lua w (after_config_file w c))));
    [reflexivity | confined_auto | | intros _].
  { intros st a. unfold when, after_limit.
    destruct (0 <? limit fl); run_all; reflexivity. }
  do 2 (apply (config_at_event_loop_bind
                 (fun c => c)
                 (fun c => after_period fl
                             (after_config_lua w (after_config_file w c))));
        [reflexivity | confined_auto | same_config | intros _]).
  apply (config_at_event_loop_bind
           (after_config_file w)
           (fun c => after_period fl (after_config_lua w c)));
    [reflexivity | confined_auto | apply config_after_load_config
     | intros _].
  apply (config_at_event_loop_bind (after_config_lua w) (after_period fl));
    [reflexivity | confined_auto | apply config_after_load_lua | intros _].
  apply (config_at_event_loop_bind (fun c => c) (after_period fl));
    [reflexivity | confined_auto | apply config_after_load_themes
     | intros theme].
  do 4 (apply (config_at_event_loop_bind (fun c => c) (after_period fl));
        [reflexivity | confined_auto | same_config | intros _]).
  apply (config_at_event_loop_bind (after_period fl) (fun c => c));
    [reflexivity | confined_auto | | intros _].
  { intros st a. unfold when, after_period.
    destruct (0 <=? period fl); run_all; reflexivity. }
  do 2 (apply (config_at_event_loop_bind (fun c => c) (fun c => c));
        [reflexivity | confined_auto | same_config | intros]).
  apply config_at_event_loop_start_ui.
Qed.

Lemma run_final (w : World) :
  final (run TrimSpace w)
  = snd (run_body TrimSpace w
                  {| config_Current := initialConfig w;
                     DefaultRevset := ""; CurrentRevset := "";
                     events := []; deferred := [] |}).
Proof.
  unfold run. destruct (run_body TrimSpace w _) as [[c | c | c] st1];
    reflexivity.
Qed.

(** X20.  When the event loop is run, the configuration is the initial one
    taken through its sources in this order: [--limit], the configuration
    file, [config.lua], [--period].  So a refresh interval given on the
    command line holds against the files, while a limit given there holds
    only as far as the files leave it alone, as they do when there is no
    configuration file and no [config.lua]. *)
Theorem configuration_sources_in_order (w : World) :
  In EvProgramRun (trace (run TrimSpace w)) ->
  exists fl,
    flagParse w = Parsed fl
    /\ config_Current (final (run TrimSpace w))
       = after_period fl
           (after_config_lua w
              (after_config_file w (after_limit fl (initialConfig w))))
    /\ (0 < limit fl -> loadConfigFile w = ConfigErrNotExist ->
        loadLuaConfigFile w = inl "" ->
        Limit (config_Current (final (run TrimSpace w))) = limit fl).
Proof.
  intros Hin.
  destruct (isSubprocess w) eqn:Hs.
  { destruct (run_stub TrimSpace w Hs) as (Et & _). rewrite Et in Hin.
    simpl in Hin. intuition discriminate. }
  destruct (event_loop_parsed TrimSpace w Hin) as (fl & Hf).
  exists fl. split; [exact Hf|].
  assert (E : config_Current (final (run TrimSpace w))
              = configured w fl (initialConfig w)).
  { rewrite run_trace, run_final in Hin. rewrite run_final.
    rewrite run_body_unfold in *. cbv zeta in *. rewrite Hs in *.
    match type of Hin with
    | context [run_primary TrimSpace w ?s] =>
      destruct (config_at_event_loop_run_primary w fl Hf s)
        as (es & ds & E1 & E2 & F2 & HC)
    end.
    rewrite E1, E2 in Hin. cbn [events deferred app] in Hin.
    assert (Hes : In EvProgramRun es).
    { repeat (rewrite ?in_app_iff in Hin; simpl in Hin).
      intuition (try discriminate; try clear_absurd). }
    exact (HC Hes). }
  split; [exact E|].
  intros Hl Hc Hlua. rewrite E.
  unfold configured, after_period, after_config_lua, after_config_file,
    after_limit.
  rewrite Hc, Hlua. simpl.
  destruct (Z.ltb_spec 0 (limit fl)); [|lia].
  destruct (0 <=? period fl); reflexivity.
Qed.

End Pipeline.

(** ** The further statements at work on sample inputs *)

Lemma adjustPrompt_ascii_visible_witness :
  adjustPrompt "Password: " = "Password: ".
Proof.
  apply (adjustPrompt_ascii_visible "Password: " "P"%char).
  - simpl. auto.
  - reflexivity.
  - reflexivity.
Defined.

Lemma handler_posts_show_then_hide_witness :
  ([showMsg "Password: " 0%nat] = [] /\ Parked = AtEntry)
  \/ ([showMsg "Password: " 0%nat] = [] ++ [showMsg "Password: " 0%nat]
      /\ Parked <> AtEntry
      /\ (forall r, Parked = Returned r -> @nil Case = [CasePassword]))
  \/ ([showMsg "Password: " 0%nat]
      = [] ++ [showMsg "Password: " 0%nat; TogglePasswordMsg_zero]
      /\ Parked = Returned None /\ @nil Case = [CaseDone]).
Proof.
  exact (handler_posts_show_then_hide "ssh" "Password: " 0%nat [] false
           [Handler CaseDone; Handler CaseDone]
           {| pc := Parked; ui := [showMsg "Password: " 0%nat];
              password := []; done := false; taken := [] |} eq_refl).
Defined.

Lemma handler_waits_for_a_signal_witness :
  pc (run_handler post 3 "ssh" "Password: " 0%nat CaseDone
                  (entry [] false)) = Parked.
Proof.
  exact (proj1 (proj2 (handler_waits_for_a_signal
                         "ssh" "Password: " 0%nat [] [] (entry [] false)
                         CaseDone eq_refl eq_refl))).
Defined.

Lemma handler_returns_on_a_signal_witness :
  exists r,
    pc (run_handler post 3 "ssh" "Password: " 0%nat CasePassword
          {| pc := AtSelect; ui := [showMsg "Password: " 0%nat];
             password := [Some sampleSecret]; done := true; taken := [] |})
    = Returned r.
Proof.
  assert (He : exec post "ssh" "Password: " 0%nat
                 [Handler CaseDone; FireDone; Deliver (Some sampleSecret)]
                 (entry [] false)
               = Some {| pc := AtSelect; ui := [showMsg "Password: " 0%nat];
                         password := [Some sampleSecret]; done := true;
                         taken := [] |}) by reflexivity.
  assert (Hs : signals [Handler CaseDone; FireDone;
                        Deliver (Some sampleSecret)] <> []
               \/ false = true) by (left; discriminate).
  destruct (handler_returns_on_a_signal
              "ssh" "Password: " 0%nat [] false
              [Handler CaseDone; FireDone; Deliver (Some sampleSecret)]
              {| pc := AtSelect; ui := [showMsg "Password: " 0%nat];
                 password := [Some sampleSecret]; done := true;
                 taken := [] |}
              CasePassword He Hs)
    as (r & Hr & _).
  exists r. exact Hr.
Defined.

Lemma result_channel_capacity_witness :
  step post "ssh" "Password: " 0%nat (Deliver None)
       {| pc := AtSelect; ui := [showMsg "Password: " 0%nat];
          password := [Some sampleSecret]; done := false; taken := [] |}
  = None.
Proof.
  refine (proj2 (proj2 (result_channel_capacity
                          "ssh" "Password: " 0%nat [] false
                          [Handler CaseDone; Deliver (Some sampleSecret)]
                          {| pc := AtSelect;
                             ui := [showMsg "Password: " 0%nat];
                             password := [Some sampleSecret];
                             done := false; taken := [] |} eq_refl))
                _ None).
  discriminate.
Defined.

Lemma flags_served_before_repository_witness :
  trace (run noTrim (worldWith helpFlags noRepo None))
  = [EvNewUnstartedServer "JJUI"; EvIsSubprocess; EvFlagParse; EvFlagUsage]
  /\ status (run noTrim (worldWith helpFlags noRepo None)) = 0.
Proof.
  exact (proj1 (flags_served_before_repository
                  noTrim (worldWith helpFlags noRepo None) helpFlags
                  eq_refl eq_refl) eq_refl).
Defined.

Lemma status_of_the_event_loop_witness :
  status (run noTrim (worldWith tunedFlags (CmdOk "/repo")
                                (Some "terminal lost"))) = 1
  /\ In (EvStdout ("Error running program: " ++ "terminal lost" ++ nl)%string)
        (trace (run noTrim (worldWith tunedFlags (CmdOk "/repo")
                                      (Some "terminal lost")))).
Proof.
  apply (proj2 (status_of_the_event_loop
                  noTrim
                  (worldWith tunedFlags (CmdOk "/repo") (Some "terminal lost"))
                  ltac:(vm_compute; tauto))
               "terminal lost" eq_refl).
Defined.

Lemma histories_flushed_last_witness :
  exists l1 l2 l3,
    trace (run noTrim (worldWith tunedFlags (CmdOk "/repo") None))
    = l1 ++ EvNewAppContext "/repo" :: l2 ++ EvHistoriesFlush :: l3
    /\ clear from_context l1
    /\ clear is_app_context l2
    /\ Forall (fun e => e = EvLogFileClose) l3.
Proof.
  apply (histories_flushed_last
           noTrim (worldWith tunedFlags (CmdOk "/repo") None) "/repo").
  vm_compute. tauto.
Defined.

Lemma command_line_overrides_witness :
  exists fl,
    Parsed tunedFlags = Parsed fl
    /\ UI_AutoRefreshInterval
         (config_Current
            (final (run noTrim (worldWith tunedFlags (CmdOk "/repo") None))))
       = 5
    /\ DefaultRevset
         (final (run noTrim (worldWith tunedFlags (CmdOk "/repo") None)))
       = "main".
Proof.
  destruct (command_line_overrides
              noTrim (worldWith tunedFlags (CmdOk "/repo") None)
              ltac:(vm_compute; tauto))
    as (fl & Hf & Hp & Hr & _).
  exists fl. split; [exact Hf|].
  injection Hf as <-.
  split; [apply Hp; vm_compute; discriminate | apply Hr; discriminate].
Defined.

Lemma jj_root_location_and_failure_witness :
  status (run noTrim (worldWith tunedFlags noRepo None)) = 1
  /\ exists l1,
      trace (run noTrim (worldWith tunedFlags noRepo None))
      = l1 ++ [EvExecJJRoot "/repo";
               EvStderr (noTrim "Error: There is no jj repo here" ++ nl)%string].
Proof.
  destruct (jj_root_location_and_failure
              noTrim (worldWith tunedFlags noRepo None) "/repo"
              ltac:(vm_compute; tauto))
    as (fl & _ & _ & _ & Hx & _).
  exact (Hx "Error: There is no jj repo here" eq_refl).
Defined.

Lemma failures_come_with_a_message_witness :
  Exists (fun e => is_message e = true)
         (trace (run noTrim (worldWith tunedFlags noRepo None))).
Proof.
  apply (failures_come_with_a_message
           noTrim (worldWith tunedFlags noRepo None) tunedFlags eq_refl
           (or_introl eq_refl)).
  vm_compute. discriminate.
Defined.


Lemma configuration_sources_in_order_witness :
  exists fl,
    Parsed tunedFlags = Parsed fl
    /\ Limit (config_Current
                (final (run noTrim
                            (worldWith tunedFlags (CmdOk "/repo") None))))
       = 50.
Proof.
  destruct (configuration_sources_in_order
              noTrim (worldWith tunedFlags (CmdOk "/repo") None)
              ltac:(vm_compute; tauto))
    as (fl & Hf & _ & Hl).
  exists fl. split; [exact Hf|].
  injection Hf as <-.
  apply Hl; reflexivity.
Defined.
